(** * gomigrate: the migration registry and the migration engine

    A shallow embedding of [migration.go] (discovery and pairing of the
    migration files) and of the migrator (bootstrap, ordered listing,
    transactional apply, bulk migrate and rollback), followed by the
    properties of the specification that concern them.

    Conventions of the embedding:
    - Go's [int] is a [Z] with its 64-bit wrap-around written out
      ([wrap64]); a [uint64] id is an [N]; a [string] is a [string].
    - An [error] is an [option error] ([None] is [nil]). A function of
      the package returning [(v, err)] returns the pair; a call into the
      outside world returning [(v, err)] returns a sum [A + error].
    - The database, the logger and the file system are the outside world.
      Every database call is recorded in the world ([calls]) and answered
      by the driver as a function of the calls made before it, so that
      any deterministic database behaviour is some driver.
    - [map[uint64]*Migration] is a [gmap N Migration]: the pointer stored
      under a key is identified with that key (discovery allocates one
      fresh [Migration] per key), and a write through the pointer is an
      update of the map at the key.
    - A computation is a function from the world to an [outcome]: it
      returns, it panics (a Go run-time panic), or the process exits. *)

From Stdlib Require Import ZArith NArith Ascii String List Lia.
From stdpp Require Import base decidable option list sorting gmap strings.

Local Open Scope string_scope.

(** ** Errors *)

(** The package's error values, [sql.ErrNoRows], the anonymous error of
    [ApplyMigration]'s type switch, and the errors made elsewhere (driver,
    operating system, asset functions). *)
Inductive error : Type :=
  | ErrNoRows
  | InvalidMigrationFile
  | InvalidMigrationPair
  | InvalidMigrationsPath
  | InvalidMigrationType
  | NoActiveMigrations
  | UnsupportedSource
  | ExternalError (msg : string).

#[global] Instance error_eq_dec : EqDecision error.
Proof. solve_decision. Defined.

(** ** Machine integers *)

Definition int_min : Z := (- 2 ^ 63)%Z.
Definition int_max : Z := (2 ^ 63 - 1)%Z.

(** The value of an [int] expression whose mathematical value is [z]. *)
Definition wrap64 (z : Z) : Z := ((z - int_min) mod 2 ^ 64 + int_min)%Z.

(** [s[i]] on a slice: [None] is the run-time panic "index out of range". *)
Definition index {A} (s : list A) (i : Z) : option A :=
  if (i <? 0)%Z then None else s !! Z.to_nat i.

(** [len(s)]. *)
Definition len {A} (s : list A) : Z := Z.of_nat (length s).

(** ** Migrations *)

Definition migrationType : Type := string.

Definition migrationTableName : string := "gomigrate".
Definition upMigration : migrationType := "up".
Definition downMigration : migrationType := "down".

(** Migration statuses ([iota]). *)
Definition Inactive : Z := 0%Z.
Definition Active : Z := 1%Z.

Record Migration : Type := mkMigration {
  DownPath : string;
  Id : N;
  Name : string;
  Status : Z;
  UpPath : string
}.

#[global] Instance Migration_eq_dec : EqDecision Migration.
Proof. solve_decision. Defined.

Definition set_UpPath (p : string) (m : Migration) : Migration :=
  {| DownPath := DownPath m; Id := Id m; Name := Name m;
     Status := Status m; UpPath := p |}.

Definition set_DownPath (p : string) (m : Migration) : Migration :=
  {| DownPath := p; Id := Id m; Name := Name m;
     Status := Status m; UpPath := UpPath m |}.

Definition set_Status (s : Z) (m : Migration) : Migration :=
  {| DownPath := DownPath m; Id := Id m; Name := Name m;
     Status := s; UpPath := UpPath m |}.

(** [Migration.valid]. *)
Definition valid (m : Migration) : bool :=
  if bool_decide (Id m ≠ 0%N) && bool_decide (Name m ≠ "")
     && bool_decide (UpPath m ≠ "") && bool_decide (DownPath m ≠ "")
  then true
  else false.

(** The registry: [map[uint64]*Migration]. *)
Abbreviation registry := (gmap N Migration).

(** ** The outside world *)

Inductive Arg : Type :=
  | AStr (s : string)
  | AId (id : N).

(** A call on [*sql.DB] or on the open [*sql.Tx]. [CQueryRow] stands for
    [QueryRow(sql, arg)] followed by [Scan] on the row. *)
Inductive Call : Type :=
  | CQueryRow (sql : string) (arg : Arg)
  | CExec (sql : string)
  | CBegin
  | CTxExec (sql : string) (args : list Arg)
  | CTxRollback
  | CTxCommit.

(** What [Tx.Exec] gives back: an error, or a [sql.Result] that may be
    [nil]; [RowsAffected] on a result gives a count or an error. *)
Inductive ExecResult : Type :=
  | ExecFail (e : error)
  | ExecOk (result : option (Z + error)).

(** The database behind [*sql.DB]: the answer to each call, given the
    calls made so far (most recent first). *)
Record Driver : Type := mkDriver {
  db_QueryRow : list Call → string → Arg → option error;
  db_Exec : list Call → string → option error;
  db_Begin : list Call → option error;
  tx_Exec : list Call → string → list Arg → ExecResult;
  tx_Rollback : list Call → option error;
  tx_Commit : list Call → option error
}.

Inductive LogMethod : Type := Print | Printf | Println | Fatalf.

Inductive LogArg : Type :=
  | LStr (s : string)
  | LNum (n : Z)
  | LErr (e : error).

Record LogEntry : Type := mkLogEntry {
  log_method : LogMethod;
  log_format : string;
  log_args : list LogArg
}.

(** An implementation of the [Logger] interface. Its output goes to the
    world. [Fatalf] of the standard [log.Logger] ends the process after
    printing; an implementation of the interface may return instead. *)
Record Logger : Type := mkLogger {
  fatalf_returns : bool
}.

(** The file system as [filepath.Glob] and [ioutil.ReadFile] see it. *)
Record FileSystem : Type := mkFileSystem {
  fs_Glob : string → list string + error;
  fs_ReadFile : string → string + error
}.

Record World : Type := mkWorld {
  calls : list Call;
  output : list LogEntry;
  fs : FileSystem
}.

(** ** Computations *)

Inductive outcome (A : Type) : Type :=
  | Returns (a : A) (w : World)
  | Panics (reason : string) (w : World)
  | Exits (w : World).

Arguments Returns {A} a w.
Arguments Panics {A} reason w.
Arguments Exits {A} w.

Definition M (A : Type) : Type := World → outcome A.

Definition ret {A} (a : A) : M A := λ w, Returns a w.

Definition bind {A B} (c : M A) (k : A → M B) : M B :=
  λ w, match c w with
       | Returns a w' => k a w'
       | Panics r w' => Panics r w'
       | Exits w' => Exits w'
       end.

Definition panic {A} (reason : string) : M A := λ w, Panics reason w.

Notation "x <- c ;; k" := (bind c (λ x, k))
  (at level 100, c at next level, right associativity).
Notation "c ;; k" := (bind c (λ _, k))
  (at level 100, right associativity).

(** One call on the database: recorded, and answered from the history. *)
Definition db_call {R} (c : Call) (answer : list Call → R) : M R :=
  λ w, Returns (answer (calls w))
         {| calls := c :: calls w; output := output w; fs := fs w |}.

Definition emit (e : LogEntry) (w : World) : World :=
  {| calls := calls w; output := e :: output w; fs := fs w |}.

(** [logger.Print], [logger.Printf], [logger.Println]. *)
Definition log (meth : LogMethod) (format : string) (args : list LogArg)
  : M unit :=
  λ w, Returns tt (emit (mkLogEntry meth format args) w).

(** [logger.Fatalf]. *)
Definition fatalf (logger : Logger) (format : string) (args : list LogArg)
  : M unit :=
  λ w, let w' := emit (mkLogEntry Fatalf format args) w in
       if fatalf_returns logger then Returns tt w' else Exits w'.

Definition Glob (pattern : string) : M (list string + error) :=
  λ w, Returns (fs_Glob (fs w) pattern) w.

Definition ReadFile (path : string) : M (string + error) :=
  λ w, Returns (fs_ReadFile (fs w) path) w.

(** [DB.QueryRow(sql, arg)] and [Scan] on its row, [DB.Exec], [DB.Begin],
    and [Exec], [Rollback], [Commit] on the transaction. *)
Definition QueryRow (db : Driver) (sql : string) (arg : Arg)
  : M (option error) :=
  db_call (CQueryRow sql arg) (λ h, db_QueryRow db h sql arg).

Definition Exec (db : Driver) (sql : string) : M (option error) :=
  db_call (CExec sql) (λ h, db_Exec db h sql).

Definition Begin (db : Driver) : M (option error) :=
  db_call CBegin (λ h, db_Begin db h).

Definition TxExec (db : Driver) (sql : string) (args : list Arg)
  : M ExecResult :=
  db_call (CTxExec sql args) (λ h, tx_Exec db h sql args).

Definition Rollback_tx (db : Driver) : M (option error) :=
  db_call CTxRollback (λ h, tx_Rollback db h).

Definition Commit (db : Driver) : M (option error) :=
  db_call CTxCommit (λ h, tx_Commit db h).

(** ** Collaborators declared outside the two source files *)

(** Modelled from the spec: the [Migratable] interface of the dialect
    adapter is declared in a file that is not at hand. The spec (section
    6) lists its capabilities: the five statements and the splitting of a
    script into statements, all pure. *)
Record Migratable : Type := mkMigratable {
  SelectMigrationTableSql : string;
  CreateMigrationTableSql : string;
  GetMigrationSql : string;
  MigrationLogInsertSql : string;
  MigrationLogDeleteSql : string;
  GetMigrationCommands : string → list string
}.

(** Modelled from the spec: [uint64slice], the [sort.Interface] under which
    [Migrations] sorts the ids, is declared in a file that is not at hand.
    The spec (section 4.3) has the listing sorted ascending by id. *)
Definition sort_ids (ids : list N) : list N := merge_sort N.le ids.

(** [filepath.Base] of the Go library, for the separator ['/']. *)
Fixpoint drop_slashes (l : list ascii) : list ascii :=
  match l with
  | [] => []
  | c :: l' => if decide (c = "/"%char) then drop_slashes l' else l
  end.

Fixpoint until_slash (l : list ascii) : list ascii :=
  match l with
  | [] => []
  | c :: l' => if decide (c = "/"%char) then [] else c :: until_slash l'
  end.

Definition Base (path : string) : string :=
  if decide (path = "") then "."
  else
    let stripped := drop_slashes (rev (list_ascii_of_string path)) in
    let elem := rev (until_slash stripped) in
    if decide (elem = []) then "/" else string_of_list_ascii elem.

(** ** Migration sources *)

Record FileMigrationSource : Type := mkFileMigrationSource {
  file_Dir : string
}.

Record AssetMigrationSource : Type := mkAssetMigrationSource {
  Asset : string → string + error;
  AssetDir : string → list string + error;
  asset_Dir : string
}.

(** The dynamic type of a [MigrationSource]. [FindMigrations] has value
    receivers, so the structs and the pointers to them implement the
    interface alike; the type switch of [ApplyMigration] knows the two
    pointer types only. *)
Inductive MigrationSource : Type :=
  | FileSourcePtr (f : FileMigrationSource)
  | AssetSourcePtr (a : AssetMigrationSource)
  | FileSourceVal (f : FileMigrationSource)
  | AssetSourceVal (a : AssetMigrationSource).

Record Migrator : Type := mkMigrator {
  DB : Driver;
  dbAdapter : Migratable;
  migrations : registry;
  logger : Logger;
  Source : MigrationSource
}.

Definition with_migrations (ms : registry) (m : Migrator) : Migrator :=
  {| DB := DB m; dbAdapter := dbAdapter m; migrations := ms;
     logger := logger m; Source := Source m |}.

Section Gomigrate.

(** [parseMigrationPath] is defined in a file that is not at hand: it is a
    parameter. It yields the id, the direction and the name of an artifact,
    or fails ([None]); its error value is never looked at. *)
Variable parseMigrationPath : string → option (N * migrationType * string).

(** The order in which [range] goes through a map, which Go leaves
    unspecified: some enumeration of the entries. *)
Variable range : registry → list (N * Migration).

(** ** Discovery and pairing *)

(** The pairing loop, written twice in the source: over
    [filepath.Base(match)] in the file variant, over [match] itself in the
    asset variant ([name_of]). *)
Fixpoint pair_loop (name_of : string → string) (matches : list string)
    (ms : registry) : M registry :=
  match matches with
  | [] => ret ms
  | mt :: rest =>
    match parseMigrationPath (name_of mt) with
    | None =>
      log Printf "Invalid migration file found: %s" [LStr mt] ;;
      pair_loop name_of rest ms
    | Some (num, mtype, name) =>
      log Printf "Migration file found: %s" [LStr mt] ;;
      let migration :=
        match ms !! num with
        | Some migration => migration
        | None =>
          {| DownPath := ""; Id := num; Name := name;
             Status := Inactive; UpPath := "" |}
        end in
      let migration :=
        if decide (mtype = upMigration) then set_UpPath mt migration
        else set_DownPath mt migration in
      pair_loop name_of rest (<[num := migration]> ms)
    end
  end.

(** The validation loop, the same in both variants. *)
Fixpoint validate_loop (entries : list (N * Migration)) : M (option error) :=
  match entries with
  | [] => ret None
  | (_, migration) :: rest =>
    if negb (valid migration) then
      let path := UpPath migration in
      let path := if decide (path = "") then DownPath migration else path in
      log Printf "Invalid migration pair for path: %s" [LStr path] ;;
      ret (Some InvalidMigrationPair)
    else validate_loop rest
  end.

Definition find_tail (ms : registry) : M (registry * option error) :=
  err <- validate_loop (range ms) ;;
  match err with
  | Some e => ret (ms, Some e)
  | None =>
    log Printf "Migrations file pairs found: %v" [LNum (Z.of_nat (size ms))] ;;
    ret (ms, None)
  end.

(** [FileMigrationSource.FindMigrations]. *)
Definition File_FindMigrations (f : FileMigrationSource) (logger : Logger)
  : M (registry * option error) :=
  let path := list_ascii_of_string (file_Dir f) in
  let pathLength := len path in
  match index path (pathLength - 1)%Z with
  | None => panic "index out of range"
  | Some last =>
    let path :=
      if decide (last ≠ "/"%char) then (path ++ ["/"%char])%list else path in
    log Printf "Migrations path: %s" [LStr (string_of_list_ascii path)] ;;
    let pathGlob := file_Dir f ++ "*" in
    r <- Glob pathGlob ;;
    matches <-
      match r with
      | inr err =>
        fatalf logger "Error while globbing migrations: %v" [LErr err] ;;
        ret []
      | inl matches => ret matches
      end ;;
    ms <- pair_loop Base matches ∅ ;;
    find_tail ms
  end.

(** [AssetMigrationSource.FindMigrations]. *)
Definition Asset_FindMigrations (a : AssetMigrationSource) (logger : Logger)
  : M (registry * option error) :=
  match AssetDir a (asset_Dir a) with
  | inr err => ret (∅, Some err)
  | inl files =>
    ms <- pair_loop (λ mt, mt) files ∅ ;;
    find_tail ms
  end.

(** [MigrationSource.FindMigrations], by dynamic dispatch. *)
Definition FindMigrations (s : MigrationSource) (logger : Logger)
  : M (registry * option error) :=
  match s with
  | FileSourcePtr f | FileSourceVal f => File_FindMigrations f logger
  | AssetSourcePtr a | AssetSourceVal a => Asset_FindMigrations a logger
  end.

(** ** Bootstrap *)

(** [Migrator.MigrationTableExists]. *)
Definition MigrationTableExists (m : Migrator) : M (bool * option error) :=
  err <- QueryRow (DB m) (SelectMigrationTableSql (dbAdapter m))
           (AStr migrationTableName) ;;
  if decide (err = Some ErrNoRows) then
    log Print "Migrations table not found" [] ;;
    ret (false, None)
  else
    match err with
    | Some e =>
      log Printf "Error checking for migration table: %v" [LErr e] ;;
      ret (false, Some e)
    | None =>
      log Print "Migrations table found" [] ;;
      ret (true, None)
    end.

(** [Migrator.CreateMigrationsTable]. *)
Definition CreateMigrationsTable (m : Migrator) : M (option error) :=
  err <- Exec (DB m) (CreateMigrationTableSql (dbAdapter m)) ;;
  match err with
  | Some e => fatalf (logger m) "Error creating migrations table: %v" [LErr e]
  | None => ret tt
  end ;;
  log Printf "Created migrations table: %s" [LStr migrationTableName] ;;
  ret None.

(** The loop of [Migrator.getMigrationStatuses] over the entries of the
    registry; [ms] is the registry as the writes through the pointers have
    left it. *)
Fixpoint getMigrationStatuses_loop (m : Migrator)
    (entries : list (N * Migration)) (ms : registry)
  : M (registry * option error) :=
  match entries with
  | [] => ret (ms, None)
  | (key, migration) :: rest =>
    err <- QueryRow (DB m) (GetMigrationSql (dbAdapter m))
             (AId (Id migration)) ;;
    if decide (err = Some ErrNoRows) then
      getMigrationStatuses_loop m rest ms
    else
      match err with
      | Some e =>
        log Printf "Error getting migration status for %s: %v"
          [LStr (Name migration); LErr e] ;;
        ret (ms, Some e)
      | None =>
        getMigrationStatuses_loop m rest
          (<[key := set_Status Active migration]> ms)
      end
  end.

(** [Migrator.getMigrationStatuses]: the migrator after the call, and the
    error. *)
Definition getMigrationStatuses (m : Migrator) : M (Migrator * option error) :=
  r <- getMigrationStatuses_loop m (range (migrations m)) (migrations m) ;;
  ret (with_migrations r.1 m, r.2).

(** [NewMigratorWithLogger]: the migrator ([None] is [nil]) and the error. *)
Definition NewMigratorWithLogger (db : Driver) (adapter : Migratable)
    (ms : MigrationSource) (logger : Logger)
  : M (option Migrator * option error) :=
  let migrator := mkMigrator db adapter ∅ logger ms in
  r <- MigrationTableExists migrator ;;
  let tableExists := r.1 in
  match r.2 with
  | Some err => ret (None, Some err)
  | None =>
    err <- (if negb tableExists then CreateMigrationsTable migrator
            else ret None) ;;
    match err with
    | Some err => ret (None, Some err)
    | None =>
      r <- FindMigrations (Source migrator) logger ;;
      let migrator := with_migrations r.1 migrator in
      match r.2 with
      | Some err => ret (None, Some err)
      | None =>
        r <- getMigrationStatuses migrator ;;
        match r.2 with
        | Some err => ret (None, Some err)
        | None => ret (Some r.1, None)
        end
      end
    end
  end.

(** ** Ordered listing *)

(** The second loop of [Migrations]. A key of the map always has its
    migration; the branch for a missing one is never taken
    ([sorted_keys_lookup] below). *)
Fixpoint select_loop (ms : registry) (status : Z) (ids : list N) : list N :=
  match ids with
  | [] => []
  | id :: rest =>
    match ms !! id with
    | Some migration =>
      if decide (status = (-1)%Z ∨ Status migration = status)
      then id :: select_loop ms status rest
      else select_loop ms status rest
    | None => select_loop ms status rest
    end
  end.

(** [Migrator.Migrations]: the pointers it returns, each as the key it is
    stored under. *)
Definition Migrations (m : Migrator) (status : Z) : list N :=
  let ids := sort_ids (range (migrations m)).*1 in
  select_loop (migrations m) status ids.

(** The migrations the returned pointers point to. *)
Definition pointees (m : Migrator) (ptrs : list N) : list Migration :=
  omap (λ p, migrations m !! p) ptrs.

(** ** Applying one migration *)

(** The rollback of the transaction after error [err], written three times
    in [ApplyMigration]. *)
Definition rollback_after (m : Migrator) (err : error) : M (option error) :=
  rollbackErr <- Rollback_tx (DB m) ;;
  match rollbackErr with
  | Some rollbackErr =>
    log Printf "Error rolling back transaction: %v" [LErr rollbackErr] ;;
    ret (Some rollbackErr)
  | None => ret (Some err)
  end.

(** The loop of [ApplyMigration] over the commands: [Some] is the error
    the method returns from inside the loop. *)
Fixpoint exec_commands (m : Migrator) (commands : list string)
  : M (option error) :=
  match commands with
  | [] => ret None
  | cmd :: rest =>
    r <- TxExec (DB m) cmd [] ;;
    match r with
    | ExecFail err =>
      log Printf "Error executing migration: %v" [LErr err] ;;
      rollback_after m err
    | ExecOk None => exec_commands m rest
    | ExecOk (Some (inr err)) =>
      log Printf "Error getting rows affected: %v" [LErr err] ;;
      rollback_after m err
    | ExecOk (Some (inl rowsAffected)) =>
      log Printf "Rows affected: %v" [LNum rowsAffected] ;;
      exec_commands m rest
    end
  end.

(** The path [ApplyMigration] picks; [None] is [InvalidMigrationType]. *)
Definition migration_path (migration : Migration) (mType : migrationType)
  : option string :=
  if decide (mType = upMigration) then Some (UpPath migration)
  else if decide (mType = downMigration) then Some (DownPath migration)
  else None.

(** The type switch on the source: the content read, or [None] in the
    default case. *)
Definition read_source (m : Migrator) (path : string)
  : M (option (string + error)) :=
  match Source m with
  | FileSourcePtr _ => r <- ReadFile path ;; ret (Some r)
  | AssetSourcePtr a => ret (Some (Asset a path))
  | _ => ret None
  end.

(** [Migrator.ApplyMigration]: the migration as the call leaves it, and
    the error. *)
Definition ApplyMigration (m : Migrator) (migration : Migration)
    (mType : migrationType) : M (Migration * option error) :=
  match migration_path migration mType with
  | None => ret (migration, Some InvalidMigrationType)
  | Some path =>
    log Printf "Applying migration: %s" [LStr path] ;;
    r <- read_source m path ;;
    match r with
    | None =>
      log Println "Unsupport MigrationSource type" [] ;;
      ret (migration, Some UnsupportedSource)
    | Some (inr err) =>
      log Printf "Error reading migration: %s" [LStr path] ;;
      ret (migration, Some err)
    | Some (inl sql) =>
      err <- Begin (DB m) ;;
      match err with
      | Some err =>
        log Printf "Error opening transaction: %v" [LErr err] ;;
        ret (migration, Some err)
      | None =>
        let commands := GetMigrationCommands (dbAdapter m) sql in
        err <- exec_commands m commands ;;
        match err with
        | Some err => ret (migration, Some err)
        | None =>
          r <- TxExec (DB m)
                 (if decide (mType = upMigration)
                  then MigrationLogInsertSql (dbAdapter m)
                  else MigrationLogDeleteSql (dbAdapter m))
                 [AId (Id migration)] ;;
          match r with
          | ExecFail err =>
            log Printf "Error logging migration: %v" [LErr err] ;;
            err <- rollback_after m err ;;
            ret (migration, err)
          | ExecOk _ =>
            err <- Commit (DB m) ;;
            match err with
            | Some err =>
              log Printf "Error commiting transaction: %v" [LErr err] ;;
              ret (migration, Some err)
            | None =>
              if decide (mType = upMigration)
              then ret (set_Status Active migration, None)
              else ret (set_Status Inactive migration, None)
            end
          end
        end
      end
    end
  end.

(** ** Bulk operations *)

(** [ApplyMigration] on the pointer [p] of the registry: the write through
    the pointer is the update of the registry at [p]. *)
Definition apply_at (m : Migrator) (p : N) (mType : migrationType)
  : M (Migrator * option error) :=
  match migrations m !! p with
  | None => panic "nil pointer dereference"
  | Some migration =>
    r <- ApplyMigration m migration mType ;;
    ret (with_migrations (<[p := r.1]> (migrations m)) m, r.2)
  end.

Fixpoint Migrate_loop (m : Migrator) (ptrs : list N)
  : M (Migrator * option error) :=
  match ptrs with
  | [] => ret (m, None)
  | p :: rest =>
    r <- apply_at m p upMigration ;;
    match r.2 with
    | Some err => ret (r.1, Some err)
    | None => Migrate_loop r.1 rest
    end
  end.

(** [Migrator.Migrate]: the migrator after the call, and the error. *)
Definition Migrate (m : Migrator) : M (Migrator * option error) :=
  Migrate_loop m (Migrations m Inactive).

(** The loop of [RollbackN]. Its variable [i] starts at
    [len(migrations) - 1] and goes down; [k] is [i + 1]. At [i = -1] the
    body indexes [migrations[-1]]. *)
Fixpoint RollbackN_loop (ptrs : list N) (last_migration : Z) (k : nat)
    (m : Migrator) : M (Migrator * option error) :=
  let i := (Z.of_nat k - 1)%Z in
  if decide (i = last_migration) then ret (m, None)
  else
    match k, index ptrs i with
    | S k', Some p =>
      r <- apply_at m p downMigration ;;
      match r.2 with
      | Some err => ret (r.1, Some err)
      | None => RollbackN_loop ptrs last_migration k' r.1
      end
    | _, _ => panic "index out of range"
    end.

(** [Migrator.RollbackN]. *)
Definition RollbackN (m : Migrator) (n : Z) : M (Migrator * option error) :=
  let ptrs := Migrations m Active in
  if decide (len ptrs = 0%Z) then ret (m, None)
  else
    let last_migration := wrap64 (len ptrs - 1 - n) in
    RollbackN_loop ptrs last_migration (length ptrs) m.

(** [Migrator.Rollback]. *)
Definition Rollback (m : Migrator) : M (Migrator * option error) :=
  RollbackN m 1.

(** [Migrator.RollbackAll]. *)
Definition RollbackAll (m : Migrator) : M (Migrator * option error) :=
  let ptrs := Migrations m Active in
  RollbackN m (len ptrs).

End Gomigrate.

(** ** Concrete collaborators

    A parser, a file system, an adapter and a few databases on which the
    engine can be run. *)

Definition demo_parse (name : string) : option (N * migrationType * string) :=
  if decide (name = "001_init.up.sql") then Some (1%N, upMigration, "init")
  else if decide (name = "001_init.down.sql")
  then Some (1%N, downMigration, "init")
  else if decide (name = "002_add_col.up.sql")
  then Some (2%N, upMigration, "add_col")
  else if decide (name = "002_add_col.down.sql")
  then Some (2%N, downMigration, "add_col")
  else if decide (name = "003_broken.up.sql")
  then Some (3%N, upMigration, "broken")
  else None.

Definition demo_fs : FileSystem :=
  {| fs_Glob := λ pattern,
       if decide (pattern = "db/*") then
         inl ["db/001_init.down.sql"; "db/001_init.up.sql"; "db/README";
              "db/002_add_col.down.sql"; "db/002_add_col.up.sql"]
       else if decide (pattern = "broken/*") then
         inl ["broken/003_broken.up.sql"]
       else inl [];
     fs_ReadFile := λ path, inl "first;second" |}.

Fixpoint split_semicolons (s cur : string) : list string :=
  match s with
  | EmptyString => [cur]
  | String c s' =>
    if decide (c = ";"%char) then cur :: split_semicolons s' ""
    else split_semicolons s' (cur ++ String c "")
  end.

Definition demo_adapter : Migratable :=
  {| SelectMigrationTableSql := "SELECT tablename FROM tables WHERE name = $1";
     CreateMigrationTableSql := "CREATE TABLE gomigrate (migration_id)";
     GetMigrationSql := "SELECT migration_id FROM gomigrate WHERE migration_id = $1";
     MigrationLogInsertSql := "INSERT INTO gomigrate (migration_id) VALUES ($1)";
     MigrationLogDeleteSql := "DELETE FROM gomigrate WHERE migration_id = $1";
     GetMigrationCommands := λ sql, split_semicolons sql "" |}.

(** A database on which every call succeeds and every row is found. *)
Definition db_ok : Driver :=
  {| db_QueryRow := λ _ _ _, None;
     db_Exec := λ _ _, None;
     db_Begin := λ _, None;
     tx_Exec := λ _ _ _, ExecOk (Some (inl 0%Z));
     tx_Rollback := λ _, None;
     tx_Commit := λ _, None |}.

(** A database without the log table, on which it cannot be created. *)
Definition db_no_table : Driver :=
  {| db_QueryRow := λ _ _ _, Some ErrNoRows;
     db_Exec := λ _ _, Some (ExternalError "permission denied");
     db_Begin := λ _, None;
     tx_Exec := λ _ _ _, ExecOk None;
     tx_Rollback := λ _, None;
     tx_Commit := λ _, None |}.

(** A database on which no commit goes through. *)
Definition db_commit_fails : Driver :=
  {| db_QueryRow := λ _ _ _, None;
     db_Exec := λ _ _, None;
     db_Begin := λ _, None;
     tx_Exec := λ _ _ _, ExecOk None;
     tx_Rollback := λ _, None;
     tx_Commit := λ _, Some (ExternalError "connection lost") |}.

(** A database that rejects the statement ["second"], and on which the
    rollback of a transaction fails too if [rollback_fails]. *)
Definition db_statement_fails (rollback_fails : bool) : Driver :=
  {| db_QueryRow := λ _ _ _, None;
     db_Exec := λ _ _, None;
     db_Begin := λ _, None;
     tx_Exec := λ _ sql _,
       if decide (sql = "second") then ExecFail (ExternalError "syntax error")
       else ExecOk None;
     tx_Rollback := λ _,
       if rollback_fails then Some (ExternalError "connection lost") else None;
     tx_Commit := λ _, None |}.

Definition std_logger : Logger := {| fatalf_returns := false |}.

Definition demo_source : MigrationSource :=
  FileSourcePtr {| file_Dir := "db/" |}.

Definition demo_migration (id : N) (name : string) (status : Z) : Migration :=
  {| DownPath := "db/" ++ name ++ ".down.sql"; Id := id; Name := name;
     Status := status; UpPath := "db/" ++ name ++ ".up.sql" |}.

Definition demo_registry (s1 s2 : Z) : registry :=
  <[1%N := demo_migration 1 "001_init" s1]>
    (<[2%N := demo_migration 2 "002_add_col" s2]> ∅).

Definition demo_migrator (db : Driver) (ms : registry) : Migrator :=
  mkMigrator db demo_adapter ms std_logger demo_source.

Definition w0 : World := {| calls := []; output := []; fs := demo_fs |}.

(** The enumeration of a map in the order of [map_to_list]. *)
Definition range_list (ms : registry) : list (N * Migration) := map_to_list ms.

(** The world in which a computation ends. *)
Definition world_of {A} (o : outcome A) : World :=
  match o with
  | Returns _ w | Panics _ w | Exits w => w
  end.

(** The artifacts of the directory ["db/"] of [demo_fs]. *)
Definition demo_matches : list string :=
  ["db/001_init.down.sql"; "db/001_init.up.sql"; "db/README";
   "db/002_add_col.down.sql"; "db/002_add_col.up.sql"].

(** ** Registries as discovery builds them *)

(** Every migration is stored under its own id. *)
Definition keyed (ms : registry) : Prop :=
  ∀ key migration, ms !! key = Some migration → Id migration = key.

(** Every status is one of the two of the enumeration. *)
Definition statuses_known (ms : registry) : Prop :=
  ∀ key migration, ms !! key = Some migration →
    Status migration = Inactive ∨ Status migration = Active.

(** ** What a call of the engine did to the database *)

(** Between the worlds [w] and [w'] the last database call was the commit
    of a transaction, and the database answered it with [r]. *)
Definition commit_result (m : Migrator) (w w' : World) (r : option error)
  : Prop :=
  ∃ h, calls w' = CTxCommit :: h ++ calls w
       ∧ tx_Commit (DB m) (h ++ calls w) = r.

(** The history after the statements [cmds] were executed, one after the
    other, on top of the history [h]. *)
Definition executed (cmds : list string) (h : list Call) : list Call :=
  (rev (map (λ cmd, CTxExec cmd []) cmds) ++ h)%list.

(** The answers to [Tx.Exec] after which the loop over the statements goes
    on: no error, and a result that is [nil] or tells its row count. *)
Definition statement_ok (r : ExecResult) : Prop :=
  r = ExecOk None ∨ ∃ rows, r = ExecOk (Some (inl rows)).

(** How the database calls of one [ApplyMigration] end, and the error it
    then returns: without any call, with the opening of the transaction,
    with its rollback, or with its commit. *)
Inductive apply_end (m : Migrator) (w w' : World) : option error → Prop :=
  | end_no_call e :
      calls w' = calls w → apply_end m w w' (Some e)
  | end_begin e :
      calls w' = CBegin :: calls w → apply_end m w w' (Some e)
  | end_rollback e h :
      calls w' = CTxRollback :: (h ++ calls w)%list →
      apply_end m w w' (Some e)
  | end_commit h r :
      calls w' = CTxCommit :: (h ++ calls w)%list →
      tx_Commit (DB m) (h ++ calls w)%list = r →
      apply_end m w w' r.

(** ** What a source enumerates *)

(** The enumeration of the artifacts succeeded and gave [matches]: for a
    file source, [Dir] is not empty and [filepath.Glob] succeeded; for an
    asset source, [AssetDir] succeeded. *)
Definition enumerates (s : MigrationSource) (w : World)
    (matches : list string) : Prop :=
  match s with
  | FileSourcePtr f | FileSourceVal f =>
    file_Dir f ≠ "" ∧ fs_Glob (fs w) (file_Dir f ++ "*") = inl matches
  | AssetSourcePtr a | AssetSourceVal a =>
    AssetDir a (asset_Dir a) = inl matches
  end.

(** The name a source parses for the artifact [mt]. *)
Definition artifact_name (s : MigrationSource) (mt : string) : string :=
  match s with
  | FileSourcePtr _ | FileSourceVal _ => Base mt
  | AssetSourcePtr _ | AssetSourceVal _ => mt
  end.

(** ** Notions for the bulk operations and the traces *)

(** The status [ApplyMigration] leaves behind when it succeeds. *)
Definition status_after (mType : migrationType) : Z :=
  if decide (mType = upMigration) then Active else Inactive.

(** Applying the direction [mType] to the pointers [ptrs] in turn, stopping
    at the first error. This is the plain iteration that the loops of
    [Migrate] and of [RollbackN] are compared with. *)
Fixpoint apply_in_order (mType : migrationType) (ptrs : list N)
    (m : Migrator) : M (Migrator * option error) :=
  match ptrs with
  | [] => ret (m, None)
  | p :: rest =>
    r <- apply_at m p mType ;;
    match r.2 with
    | Some err => ret (r.1, Some err)
    | None => apply_in_order mType rest r.1
    end
  end.

(** Two migrations that differ in their Status at most. *)
Definition same_but_Status (a b : Migration) : Prop :=
  DownPath a = DownPath b ∧ Id a = Id b ∧ Name a = Name b
  ∧ UpPath a = UpPath b.

(** Two migrators with the same database, adapter, logger and source,
    whose registries hold the same keys and, under each key, migrations
    that differ in their Status at most. *)
Definition same_but_statuses (m m' : Migrator) : Prop :=
  DB m' = DB m ∧ dbAdapter m' = dbAdapter m ∧ logger m' = logger m
  ∧ Source m' = Source m
  ∧ ∀ key,
      match migrations m !! key, migrations m' !! key with
      | Some a, Some b => same_but_Status a b
      | None, None => True
      | _, _ => False
      end.

Definition is_TxExec (c : Call) : Prop :=
  match c with CTxExec _ _ => True | _ => False end.

Definition is_QueryRow (c : Call) : Prop :=
  match c with CQueryRow _ _ => True | _ => False end.

(** A database whose answer to a lookup does not depend on the calls made
    before it. *)
Definition stable_reads (db : Driver) : Prop :=
  ∀ h h' sql arg, db_QueryRow db h sql arg = db_QueryRow db h' sql arg.

(** The lookup of the log entry of [migration] finds a row. *)
Definition in_log (m : Migrator) (migration : Migration) : Prop :=
  db_QueryRow (DB m) [] (GetMigrationSql (dbAdapter m)) (AId (Id migration))
  = None.

(** The statement that writes the log: insert for up, delete otherwise. *)
Definition log_statement (m : Migrator) (mType : migrationType) : string :=
  if decide (mType = upMigration) then MigrationLogInsertSql (dbAdapter m)
  else MigrationLogDeleteSql (dbAdapter m).

(** ** More concrete collaborators *)

#[global] Instance Arg_eq_dec : EqDecision Arg.
Proof. solve_decision. Defined.

#[global] Instance Call_eq_dec : EqDecision Call.
Proof. solve_decision. Defined.

(** A database that rejects the statement ["second"] once a transaction
    has been committed: the first migration goes through, the next one
    fails. *)
Definition db_fails_after_commit : Driver :=
  {| db_QueryRow := λ _ _ _, None;
     db_Exec := λ _ _, None;
     db_Begin := λ _, None;
     tx_Exec := λ h sql _,
       if decide (sql = "second" ∧ CTxCommit ∈ h)
       then ExecFail (ExternalError "syntax error")
       else ExecOk None;
     tx_Rollback := λ _, None;
     tx_Commit := λ _, None |}.

#[global] Instance in_log_dec (m : Migrator) (migration : Migration) :
  Decision (in_log m migration).
Proof. unfold in_log. apply _. Defined.

(** The migration as the reconciliation with the log leaves it: Active if
    its log entry is found, as it was otherwise. *)
Definition reconciled (m : Migrator) (migration : Migration) : Migration :=
  if decide (in_log m migration) then set_Status Active migration
  else migration.

(** ** What pairing makes of the artifacts *)

(** The registry [ms] holds only what the artifacts [seen] give, [parse]
    being the parser applied to the name of an artifact: each migration
    sits under its own id, is Inactive, has the name of an artifact of
    its id, an up location that is empty or an artifact of its id and of
    the direction up, and a down location that is empty or an artifact of
    its id and of another direction. *)
Definition paired_from (parse : string → option (N * migrationType * string))
    (seen : list string) (ms : registry) : Prop :=
  ∀ num mig, ms !! num = Some mig →
    Id mig = num ∧ Status mig = Inactive
    ∧ (∃ mt t, mt ∈ seen ∧ parse mt = Some (num, t, Name mig))
    ∧ (UpPath mig = ""
       ∨ UpPath mig ∈ seen
         ∧ ∃ name, parse (UpPath mig) = Some (num, upMigration, name))
    ∧ (DownPath mig = ""
       ∨ DownPath mig ∈ seen
         ∧ ∃ t name, t ≠ upMigration
             ∧ parse (DownPath mig) = Some (num, t, name)).

(** The keys of [ms] are exactly the ids of the artifacts [seen] that
    parse. *)
Definition keys_from (parse : string → option (N * migrationType * string))
    (seen : list string) (ms : registry) : Prop :=
  ∀ num, is_Some (ms !! num)
         ↔ ∃ mt t name, mt ∈ seen ∧ parse mt = Some (num, t, name).

(** A database on which the statement writing the log entry fails. *)
Definition db_log_fails : Driver :=
  {| db_QueryRow := λ _ _ _, None;
     db_Exec := λ _ _, None;
     db_Begin := λ _, None;
     tx_Exec := λ _ sql _,
       if decide (sql = MigrationLogInsertSql demo_adapter)
       then ExecFail (ExternalError "log table locked")
       else ExecOk None;
     tx_Rollback := λ _, None;
     tx_Commit := λ _, None |}.

(** A database on which the statement ["second"] executes but the row
    count of its result cannot be read. *)
Definition db_rows_fail : Driver :=
  {| db_QueryRow := λ _ _ _, None;
     db_Exec := λ _ _, None;
     db_Begin := λ _, None;
     tx_Exec := λ _ sql _,
       if decide (sql = "second")
       then ExecOk (Some (inr (ExternalError "no row count")))
       else ExecOk (Some (inl 1%Z));
     tx_Rollback := λ _, None;
     tx_Commit := λ _, None |}.

(** A database with the log table, in which migration 1 alone has an
    entry. *)
Definition db_row_1 : Driver :=
  {| db_QueryRow := λ _ _ arg,
       match arg with
       | AStr _ => None
       | AId id => if decide (id = 1%N) then None else Some ErrNoRows
       end;
     db_Exec := λ _ _, None;
     db_Begin := λ _, None;
     tx_Exec := λ _ _ _, ExecOk None;
     tx_Rollback := λ _, None;
     tx_Commit := λ _, None |}.

(** A database that cannot be reached. *)
Definition db_down : Driver :=
  {| db_QueryRow := λ _ _ _, Some (ExternalError "connection refused");
     db_Exec := λ _ _, Some (ExternalError "connection refused");
     db_Begin := λ _, Some (ExternalError "connection refused");
     tx_Exec := λ _ _ _, ExecFail (ExternalError "connection refused");
     tx_Rollback := λ _, Some (ExternalError "connection refused");
     tx_Commit := λ _, Some (ExternalError "connection refused") |}.

(** A world in which every pattern is a bad pattern for [filepath.Glob]. *)
Definition w_bad_glob : World :=
  {| calls := []; output := [];
     fs := {| fs_Glob := λ _, inr (ExternalError "syntax error in pattern");
              fs_ReadFile := λ _, inr (ExternalError "no such file") |} |}.

(** An asset bundle that holds no migration. *)
Definition notes_source : MigrationSource :=
  AssetSourcePtr
    {| Asset := λ _, inr (ExternalError "no such asset");
       AssetDir := λ _, inl ["README"; "notes.txt"];
       asset_Dir := "docs" |}.

(** The registry discovery builds from ["db/"], with the given statuses. *)
Definition found_registry (s1 s2 : Z) : registry :=
  <[1%N := {| DownPath := "db/001_init.down.sql"; Id := 1; Name := "init";
              Status := s1; UpPath := "db/001_init.up.sql" |}]>
    (<[2%N := {| DownPath := "db/002_add_col.down.sql"; Id := 2;
                 Name := "add_col"; Status := s2;
                 UpPath := "db/002_add_col.up.sql" |}]> ∅).

(** The migration discovery builds from ["broken/"]. *)
Definition broken_migration : Migration :=
  {| DownPath := ""; Id := 3; Name := "broken"; Status := Inactive;
     UpPath := "broken/003_broken.up.sql" |}.

(** Every artifact of [seen] that parses has left its mark in [ms]: the
    migration of its id has a non-empty up location if the artifact is of
    the direction up, a non-empty down location otherwise. *)
Definition covered_by (parse : string → option (N * migrationType * string))
    (seen : list string) (ms : registry) : Prop :=
  ∀ mt num t name, mt ∈ seen → parse mt = Some (num, t, name) →
    ∃ mig, ms !! num = Some mig
      ∧ (t = upMigration → UpPath mig ≠ "")
      ∧ (t ≠ upMigration → DownPath mig ≠ "").

(** The artifacts [matches] come in complete pairs: no artifact is the
    empty string, and every artifact that parses has an id other than 0, a
    non-empty name, and beside it an artifact of its id of the direction up
    and one of another direction. *)
Definition complete_pairs
    (parse : string → option (N * migrationType * string))
    (matches : list string) : Prop :=
  (∀ mt, mt ∈ matches → mt ≠ "")
  ∧ ∀ mt num t name, mt ∈ matches → parse mt = Some (num, t, name) →
      num ≠ 0%N ∧ name ≠ ""
      ∧ (∃ up name', up ∈ matches ∧ parse up = Some (num, upMigration, name'))
      ∧ (∃ down t' name', down ∈ matches ∧ t' ≠ upMigration
           ∧ parse down = Some (num, t', name')).

(** * Properties *)

Section Properties.

Local Open Scope list_scope.

Context (parseMigrationPath : string → option (N * migrationType * string)).
Context (range : registry → list (N * Migration)).
Hypothesis range_perm : ∀ ms, range ms ≡ₚ map_to_list ms.

(** ** Integers and slices *)

Lemma wrap64_id (z : Z) : (int_min ≤ z ≤ int_max)%Z → wrap64 z = z.
Proof.
  unfold wrap64, int_min, int_max. intros Hz.
  rewrite Z.mod_small; lia.
Qed.

Lemma index_nat {A} (s : list A) (k : nat) : index s (Z.of_nat k) = s !! k.
Proof.
  unfold index. destruct (Z.ltb_spec (Z.of_nat k) 0); [lia|].
  by rewrite Nat2Z.id.
Qed.

Lemma len_nil_iff {A} (s : list A) : len s = 0%Z ↔ s = [].
Proof. unfold len. destruct s; simpl; split; intros; (done || lia). Qed.

(** ** The empty directory (C10) *)

Lemma pair_loop_returns name_of matches ms w :
  ∃ ms' w', pair_loop parseMigrationPath name_of matches ms w = Returns ms' w'.
Proof.
  revert ms w. induction matches as [|mt rest IH]; intros ms w; simpl.
  - by eexists _, _.
  - destruct (parseMigrationPath (name_of mt)) as [[[num mtype] name]|];
      unfold bind, log; simpl; apply IH.
Qed.

Lemma validate_loop_returns entries w :
  ∃ err w', validate_loop entries w = Returns err w'
            ∧ (err = None ∨ err = Some InvalidMigrationPair).
Proof.
  induction entries as [|[key migration] rest IH]; simpl.
  - eexists _, _. split; [done|by left].
  - destruct (valid migration); simpl; [apply IH|].
    unfold bind, log, ret; simpl. eexists _, _. split; [done|by right].
Qed.

Lemma find_tail_returns ms w :
  ∃ err w', find_tail range ms w = Returns (ms, err) w'
            ∧ (err = None ∨ err = Some InvalidMigrationPair).
Proof.
  unfold find_tail, bind.
  destruct (validate_loop_returns (range ms) w) as (err & w' & -> & [->| ->]);
    unfold log, ret; simpl; eexists _, _; (split; [done|]); auto.
Qed.

Lemma Dir_last_byte (dir : string) :
  dir ≠ "" →
  is_Some (index (list_ascii_of_string dir)
             (len (list_ascii_of_string dir) - 1)).
Proof.
  intros Hdir.
  assert (Hlen : length (list_ascii_of_string dir) ≠ 0%nat).
  { destruct dir; [done|]. simpl. lia. }
  unfold len.
  replace (Z.of_nat (length (list_ascii_of_string dir)) - 1)%Z
    with (Z.of_nat (length (list_ascii_of_string dir) - 1)) by lia.
  rewrite index_nat. apply lookup_lt_is_Some. lia.
Qed.

(** C10. [FileMigrationSource.FindMigrations] reads the last byte of [Dir]
    at position [len(Dir) - 1] before it enumerates anything. For every
    non-empty [Dir] that index is in bounds and the operation does not
    panic; for the empty [Dir] the index is [-1], out of range, and the
    operation panics there, the world untouched. *)
Theorem File_FindMigrations_needs_Dir (f : FileMigrationSource)
    (logger : Logger) (w : World) :
  let path := list_ascii_of_string (file_Dir f) in
  (file_Dir f ≠ "" →
     is_Some (index path (len path - 1))
     ∧ ∀ reason w',
         File_FindMigrations parseMigrationPath range f logger w
         ≠ Panics reason w')
  ∧ (file_Dir f = "" →
       (len path - 1 = -1)%Z
       ∧ index path (len path - 1) = None
       ∧ File_FindMigrations parseMigrationPath range f logger w
         = Panics "index out of range" w).
Proof.
  intros path. split.
  - intros Hdir.
    assert (Hidx : is_Some (index path (len path - 1)))
      by (by apply Dir_last_byte).
    split; [done|]. intros reason w'.
    unfold File_FindMigrations. fold path.
    destruct Hidx as [last ->].
    unfold bind, log, Glob; simpl.
    destruct (fs_Glob (fs w) (file_Dir f ++ "*")) as [matches|err];
      unfold ret, fatalf; simpl.
    + match goal with |- context [pair_loop ?p ?n ?l ?m ?w1] =>
        destruct (pair_loop_returns n l m w1) as (ms' & w1' & ->) end.
      destruct (find_tail_returns ms' w1') as (err & w2 & -> & _). done.
    + destruct (fatalf_returns logger); [|done].
      match goal with |- context [pair_loop ?p ?n ?l ?m ?w1] =>
        destruct (pair_loop_returns n l m w1) as (ms' & w1' & ->) end.
      destruct (find_tail_returns ms' w1') as (err' & w2 & -> & _). done.
  - intros Hdir. unfold File_FindMigrations. fold path.
    assert (Hpath : path = []) by (subst path; by rewrite Hdir).
    rewrite Hpath. by simpl.
Qed.

(** ** Rollback of nothing (C8, C9) *)

Lemma RollbackN_loop_eq ptrs last_migration k m :
  RollbackN_loop ptrs last_migration k m
  = let i := (Z.of_nat k - 1)%Z in
    if decide (i = last_migration) then ret (m, None)
    else
      match k, index ptrs i with
      | S k', Some p =>
        r <- apply_at m p downMigration ;;
        match r.2 with
        | Some err => ret (r.1, Some err)
        | None => RollbackN_loop ptrs last_migration k' r.1
        end
      | _, _ => panic "index out of range"
      end.
Proof. by destruct k. Qed.

Lemma RollbackN_loop_stop ptrs last_migration k m w :
  (Z.of_nat k - 1)%Z = last_migration →
  RollbackN_loop ptrs last_migration k m w = Returns (m, None) w.
Proof.
  intros Hstop. rewrite RollbackN_loop_eq. cbv zeta.
  by destruct (decide _).
Qed.

(** C8. With no Active migration, [RollbackN(n)] is a no-op for every [n]:
    it returns no error, and the migrator and the world (no database call,
    no log line) are as before. *)
Theorem RollbackN_no_active (m : Migrator) (n : Z) (w : World) :
  Migrations range m Active = [] →
  RollbackN range m n w = Returns (m, None) w.
Proof.
  intros Hnone. unfold RollbackN. rewrite Hnone. by simpl.
Qed.

(** C9. With some Active migration, [RollbackN(0)] is a no-op: the stop
    index [len - 1 - 0] of the descending loop is its start index, so not
    one migration is reverted, the migrator and the world are as before,
    and no error is returned. The slice of Active migrations has a length
    that fits an [int], as every Go slice has. *)
Theorem RollbackN_zero (m : Migrator) (w : World) :
  Migrations range m Active ≠ [] →
  (len (Migrations range m Active) ≤ int_max)%Z →
  wrap64 (len (Migrations range m Active) - 1 - 0)
  = (len (Migrations range m Active) - 1)%Z
  ∧ RollbackN range m 0 w = Returns (m, None) w.
Proof.
  intros Hsome Hfit.
  assert (Hlen : len (Migrations range m Active) ≠ 0%Z)
    by (by rewrite len_nil_iff).
  assert (Hlast : wrap64 (len (Migrations range m Active) - 1 - 0)
                  = (len (Migrations range m Active) - 1)%Z).
  { rewrite Z.sub_0_r. apply wrap64_id. unfold len, int_min, int_max in *. lia. }
  split; [done|].
  unfold RollbackN. destruct (decide _) as [?|_]; [done|].
  rewrite Hlast. by apply RollbackN_loop_stop.
Qed.

(** ** The ordered listing (C6) *)

Lemma sort_ids_Permutation (ids : list N) : sort_ids ids ≡ₚ ids.
Proof. apply merge_sort_Permutation. Qed.

Lemma strictly_sorted (ids : list N) :
  StronglySorted N.le ids → NoDup ids → StronglySorted N.lt ids.
Proof.
  induction 1 as [|x ids Hsorted IH Hle]; intros Hnodup; constructor.
  - apply IH. by apply NoDup_cons_1_2 in Hnodup.
  - apply NoDup_cons in Hnodup as [Hx _].
    rewrite Forall_forall in Hle. rewrite Forall_forall. intros y Hy.
    specialize (Hle y Hy).
    assert (x ≠ y) by (intros ->; done). lia.
Qed.

Lemma range_keys (ms : registry) : (range ms).*1 ≡ₚ (map_to_list ms).*1.
Proof. by rewrite range_perm. Qed.

Lemma sorted_keys_sorted (ms : registry) :
  StronglySorted N.lt (sort_ids (range ms).*1).
Proof.
  apply strictly_sorted.
  - apply StronglySorted_merge_sort; apply _.
  - rewrite sort_ids_Permutation, range_keys. apply NoDup_fst_map_to_list.
Qed.

Lemma sorted_keys_lookup (ms : registry) (key : N) :
  key ∈ sort_ids (range ms).*1 ↔ is_Some (ms !! key).
Proof.
  rewrite sort_ids_Permutation, range_keys, list_elem_of_fmap. split.
  - intros ([k mig] & -> & Hin). apply elem_of_map_to_list in Hin. by eexists.
  - intros [mig Hmig]. exists (key, mig). split; [done|].
    by apply elem_of_map_to_list.
Qed.

Lemma elem_of_select_loop ms status ids (id : N) :
  id ∈ select_loop ms status ids
  ↔ id ∈ ids ∧ ∃ migration, ms !! id = Some migration
                ∧ (status = (-1)%Z ∨ Status migration = status).
Proof.
  induction ids as [|x ids IH]; simpl.
  - split; [by intros ?%elem_of_nil | by intros [?%elem_of_nil _]].
  - destruct (ms !! x) as [mig|] eqn:Hx;
      [destruct (decide _) as [Hsel|Hsel]|].
    + rewrite !elem_of_cons, IH. split.
      * intros [->|[Hin Hmig]]; split; eauto.
      * intros [[->|Hin] Hmig]; eauto.
    + rewrite elem_of_cons, IH. split.
      * intros [Hin Hmig]. eauto.
      * intros [[->|Hin] (mig' & Hmig' & Hsel')]; [|by eauto].
        rewrite Hx in Hmig'. by injection Hmig' as <-.
    + rewrite elem_of_cons, IH. split.
      * intros [Hin Hmig]. eauto.
      * intros [[->|Hin] (mig' & Hmig' & Hsel')]; [|by eauto].
        by rewrite Hx in Hmig'.
Qed.

Lemma select_loop_sorted ms status ids :
  StronglySorted N.lt ids → StronglySorted N.lt (select_loop ms status ids).
Proof.
  induction 1 as [|x ids Hsorted IH Hlt]; simpl; [constructor|].
  assert (Hall : Forall (N.lt x) (select_loop ms status ids)).
  { rewrite Forall_forall in Hlt. rewrite Forall_forall. intros y Hy.
    apply Hlt. by apply elem_of_select_loop in Hy as [? _]. }
  destruct (ms !! x) as [mig|]; [|done].
  destruct (decide _); [by constructor|done].
Qed.

Lemma Migrations_sorted (m : Migrator) (status : Z) :
  StronglySorted N.lt (Migrations range m status).
Proof. apply select_loop_sorted, sorted_keys_sorted. Qed.

Lemma elem_of_Migrations (m : Migrator) (status : Z) (p : N) :
  p ∈ Migrations range m status
  ↔ ∃ migration, migrations m !! p = Some migration
      ∧ (status = (-1)%Z ∨ Status migration = status).
Proof.
  unfold Migrations. rewrite elem_of_select_loop, sorted_keys_lookup.
  split; [by intros [_ Hmig]|]. intros (mig & Hmig & Hsel). split; by eauto.
Qed.

Lemma pointees_sorted (m : Migrator) (ptrs : list N) :
  keyed (migrations m) →
  StronglySorted N.lt ptrs →
  StronglySorted (λ a b, (Id a < Id b)%N) (pointees m ptrs).
Proof.
  intros Hkeyed. unfold pointees.
  induction 1 as [|p ptrs Hsorted IH Hlt]; simpl; [constructor|].
  destruct (migrations m !! p) as [mig|] eqn:Hp; [|done].
  constructor; [done|].
  rewrite Forall_forall in Hlt. rewrite Forall_forall. intros b Hb.
  apply list_elem_of_omap in Hb as (q & Hq & Hb).
  rewrite (Hkeyed _ _ Hp), (Hkeyed _ _ Hb). by apply Hlt.
Qed.

Lemma pointees_length (m : Migrator) (ptrs : list N) :
  (∀ p, p ∈ ptrs → is_Some (migrations m !! p)) →
  length (pointees m ptrs) = length ptrs.
Proof.
  unfold pointees. induction ptrs as [|p ptrs IH]; intros Hall; [done|].
  simpl. destruct (Hall p) as [mig ->]; [by left|]. simpl.
  f_equal. apply IH. intros q Hq. apply Hall. by right.
Qed.

(** C6. For every registry content and every status argument, the list
    [Migrations(status)] returns is strictly ascending by the id the
    registry holds each migration under, and a migration is in it exactly
    when it is in the registry and the argument is [-1] or its Status
    equals the argument; so with [-1] the list holds every migration of
    the registry, still strictly ascending. Every returned pointer points
    to a migration. Where each migration is stored under its own [Id], as
    discovery stores it, the list is strictly ascending by the [Id]
    field. *)
Theorem Migrations_sorted_exact (m : Migrator) (status : Z) :
  let ptrs := Migrations range m status in
  let result := pointees m ptrs in
  StronglySorted N.lt ptrs
  ∧ (∀ key,
       key ∈ ptrs
       ↔ ∃ migration, migrations m !! key = Some migration
           ∧ (status = (-1)%Z ∨ Status migration = status))
  ∧ (∀ migration,
       migration ∈ result
       ↔ (∃ key, migrations m !! key = Some migration)
         ∧ (status = (-1)%Z ∨ Status migration = status))
  ∧ (status = (-1)%Z →
     ∀ migration,
       migration ∈ result ↔ ∃ key, migrations m !! key = Some migration)
  ∧ length result = length ptrs
  ∧ (keyed (migrations m) →
     StronglySorted (λ a b, (Id a < Id b)%N) result).
Proof.
  intros ptrs result.
  assert (Hmem : ∀ migration,
    migration ∈ result
    ↔ (∃ key, migrations m !! key = Some migration)
      ∧ (status = (-1)%Z ∨ Status migration = status)).
  { intros mig. unfold result, pointees. rewrite list_elem_of_omap. split.
    - intros (p & Hp & Hmig).
      apply elem_of_Migrations in Hp as (mig' & Hmig' & Hsel).
      rewrite Hmig in Hmig'. injection Hmig' as <-. by eauto.
    - intros [[key Hkey] Hsel]. exists key. split; [|done].
      apply elem_of_Migrations. by eauto. }
  split; [apply Migrations_sorted|].
  split; [apply elem_of_Migrations|].
  split; [done|]. split; [|split].
  - intros -> mig. rewrite Hmem. split; [by intros [Hkey _]|].
    intros Hkey. split; [done|by left].
  - apply pointees_length. intros p Hp.
    apply elem_of_Migrations in Hp as (mig & Hmig & _). by eexists.
  - intros Hkeyed. apply pointees_sorted; [done|]. apply Migrations_sorted.
Qed.

(** ** Applying one migration (C3, C4) *)

Lemma rollback_after_returns (m : Migrator) (err : error) (w : World) :
  ∃ w', rollback_after m err w
        = Returns (Some (default err (tx_Rollback (DB m) (calls w)))) w'
        ∧ calls w' = CTxRollback :: calls w.
Proof.
  unfold rollback_after, bind, Rollback_tx, db_call; simpl.
  destruct (tx_Rollback (DB m) (calls w)) as [re|]; simpl;
    unfold log, ret; simpl; by eexists.
Qed.

Lemma exec_commands_returns (m : Migrator) (commands : list string)
    (w : World) :
  ∃ err w', exec_commands m commands w = Returns err w'
    ∧ ∃ h, calls w'
           = ((if err is Some _ then [CTxRollback] else []) ++ h ++ calls w)%list.
Proof.
  revert w. induction commands as [|cmd rest IH]; intros w; simpl.
  - exists None, w. split; [done|]. by exists [].
  - unfold bind at 1. unfold TxExec, db_call; simpl.
    destruct (tx_Exec (DB m) (calls w) cmd []) as [e|[[rows|e]|]].
    + unfold bind, log; simpl.
      match goal with |- context [rollback_after ?m ?e ?w1] =>
        destruct (rollback_after_returns m e w1) as (w' & -> & Hcalls) end.
      eexists _, w'. split; [done|]. exists [CTxExec cmd []].
      by rewrite Hcalls.
    + unfold bind, log; simpl.
      match goal with |- context [exec_commands ?m ?c ?w1] =>
        destruct (IH w1) as (err & w' & -> & h & Hcalls) end.
      exists err, w'. split; [done|]. exists (h ++ [CTxExec cmd []]).
      rewrite Hcalls. simpl. by rewrite <- !app_assoc.
    + unfold bind, log; simpl.
      match goal with |- context [rollback_after ?m ?e ?w1] =>
        destruct (rollback_after_returns m e w1) as (w' & -> & Hcalls) end.
      eexists _, w'. split; [done|]. exists [CTxExec cmd []].
      by rewrite Hcalls.
    + match goal with |- context [exec_commands ?m ?c ?w1] =>
        destruct (IH w1) as (err & w' & -> & h & Hcalls) end.
      exists err, w'. split; [done|]. exists (h ++ [CTxExec cmd []]).
      rewrite Hcalls. simpl. by rewrite <- !app_assoc.
Qed.

Lemma apply_end_commit (m : Migrator) (w w' : World) (err r : option error) :
  apply_end m w w' err → commit_result m w w' r → err = r.
Proof.
  intros Hend (h & Hcalls & Hr).
  destruct Hend as [e Hc|e Hc|e h' Hc|h' r' Hc Hr']; rewrite Hcalls in Hc.
  - apply (f_equal length) in Hc. simpl in Hc. rewrite length_app in Hc. lia.
  - done.
  - done.
  - injection Hc as Hc. apply app_inv_tail in Hc. by subst.
Qed.

Lemma ApplyMigration_cases (m : Migrator) (mig : Migration)
    (mType : migrationType) (w : World) :
  ∃ mig' err w',
    ApplyMigration m mig mType w = Returns (mig', err) w'
    ∧ apply_end m w w' err
    ∧ match err with
      | Some _ => mig' = mig
      | None =>
        mig' = set_Status
                 (if decide (mType = upMigration) then Active else Inactive)
                 mig
        ∧ (mType = upMigration ∨ mType = downMigration)
      end.
Proof.
  unfold ApplyMigration.
  destruct (migration_path mig mType) as [path|] eqn:Hpath.
  2: { eexists _, _, _. split; [done|]. split; [by apply end_no_call|done]. }
  assert (Hdir : mType = upMigration ∨ mType = downMigration).
  { unfold migration_path in Hpath.
    destruct (decide (mType = upMigration)); [by left|].
    destruct (decide (mType = downMigration)); [by right|done]. }
  unfold bind at 1. unfold log at 1. simpl.
  unfold bind at 1.
  set (w1 := emit _ w).
  assert (Hread : ∃ r, read_source m path w1 = Returns r w1).
  { unfold read_source. destruct (Source m); by eexists. }
  destruct Hread as [r ->].
  destruct r as [[sql|err]|].
  2,3: eexists _, _, _; (split; [done|]); split; [by apply end_no_call|done].
  unfold bind at 1. unfold Begin at 1, db_call at 1.
  destruct (db_Begin (DB m) (calls w1)) as [err|].
  { eexists _, _, _. split; [done|]. split; [by apply end_begin|done]. }
  unfold bind at 1.
  match goal with |- context [exec_commands ?m ?c ?w2] =>
    destruct (exec_commands_returns m c w2) as (err & w3 & -> & h & Hc3) end.
  simpl in Hc3. destruct err as [err|].
  { eexists _, _, _. split; [done|]. split; [|done].
    apply (end_rollback _ _ _ _ (h ++ [CBegin])).
    rewrite Hc3. simpl. by rewrite <- app_assoc. }
  unfold bind at 1. unfold TxExec at 1, db_call at 1.
  match goal with |- context [tx_Exec ?a ?b ?c ?d] =>
    destruct (tx_Exec a b c d) as [err|res] end.
  { unfold bind at 1. unfold log at 1. simpl. unfold bind at 1.
    match goal with |- context [rollback_after ?m ?e ?w4] =>
      destruct (rollback_after_returns m e w4) as (w5 & -> & Hc5) end.
    eexists _, _, _. split; [done|]. split; [|done]. simpl in Hc5.
    match type of Hc5 with _ = _ :: ?c :: _ =>
      apply (end_rollback _ _ _ _ (c :: h ++ [CBegin])) end.
    rewrite Hc5, Hc3. simpl. by rewrite <- app_assoc. }
  unfold bind at 1. unfold Commit at 1, db_call at 1. simpl.
  assert (Hhist : ∀ c, c :: calls w3 = (c :: h ++ [CBegin]) ++ calls w).
  { intros c. rewrite Hc3. simpl. by rewrite <- app_assoc. }
  match goal with |- context [tx_Commit ?a ?b] =>
    destruct (tx_Commit a b) as [err|] eqn:Hcommit end.
  - eexists _, _, _. split; [done|]. split; [|done].
    rewrite Hhist in Hcommit. eapply end_commit; [|exact Hcommit].
    simpl. by rewrite Hhist.
  - rewrite Hhist in Hcommit.
    destruct (decide (mType = upMigration)).
    + eexists _, _, _. split; [done|]. split; [|done].
      eapply end_commit; [|exact Hcommit]. simpl. by rewrite Hhist.
    + eexists _, _, _. split; [done|]. split; [|done].
      eapply end_commit; [|exact Hcommit]. simpl. by rewrite Hhist.
Qed.

(** C3. In [ApplyMigration] the Status of the migration changes only when
    the commit of the transaction succeeds: then no error is returned and
    the Status is Active for the direction up, Inactive for the direction
    down, the other fields as before. When the commit fails, the migration
    is left as it was and the error of the commit is returned. *)
Theorem ApplyMigration_status_on_commit (m : Migrator) (mig : Migration)
    (mType : migrationType) (w : World) :
  ∃ mig' err w',
    ApplyMigration m mig mType w = Returns (mig', err) w'
    ∧ (Status mig' ≠ Status mig → commit_result m w w' None)
    ∧ (commit_result m w w' None →
       err = None
       ∧ (mType = upMigration ∧ mig' = set_Status Active mig
          ∨ mType = downMigration ∧ mig' = set_Status Inactive mig))
    ∧ (∀ e, commit_result m w w' (Some e) → mig' = mig ∧ err = Some e).
Proof.
  destruct (ApplyMigration_cases m mig mType w)
    as (mig' & err & w' & Heq & Hend & Hmig).
  exists mig', err, w'. split; [done|]. split; [|split].
  - intros Hstatus. destruct err as [e|]; [by subst|].
    inversion Hend as [| | |h r Hcalls Hcommit]. by exists h.
  - intros Hcommit. rewrite (apply_end_commit _ _ _ _ _ Hend Hcommit) in Hmig.
    split; [by apply (apply_end_commit _ _ _ _ _ Hend Hcommit)|].
    destruct Hmig as [-> Hdir].
    destruct (decide (mType = upMigration)) as [Hup|Hup]; [by left|].
    right. by destruct Hdir.
  - intros e Hcommit.
    rewrite (apply_end_commit _ _ _ _ _ Hend Hcommit) in Hmig.
    split; [done|]. by apply (apply_end_commit _ _ _ _ _ Hend Hcommit).
Qed.

Lemma executed_cons (cmd : string) (cmds : list string) (h : list Call) :
  executed (cmd :: cmds) h = executed cmds (CTxExec cmd [] :: h).
Proof. unfold executed. simpl. by rewrite <- app_assoc. Qed.

Lemma exec_commands_prefix (m : Migrator) (pre rest : list string)
    (w : World) :
  (∀ k cmd, pre !! k = Some cmd →
     statement_ok (tx_Exec (DB m) (executed (take k pre) (calls w)) cmd [])) →
  ∃ w1, calls w1 = executed pre (calls w)
        ∧ exec_commands m (pre ++ rest) w = exec_commands m rest w1.
Proof.
  revert w. induction pre as [|cmd pre IH]; intros w Hok.
  - by exists w.
  - pose proof (Hok 0%nat cmd eq_refl) as Hfirst.
    unfold executed in Hfirst. simpl in Hfirst.
    simpl. unfold bind at 1. unfold TxExec at 1, db_call at 1.
    set (w1 := {| calls := CTxExec cmd [] :: calls w;
                  output := output w; fs := fs w |}).
    assert (Hrest : ∀ w2, calls w2 = calls w1 →
              ∃ w3, calls w3 = executed (cmd :: pre) (calls w)
                    ∧ exec_commands m (pre ++ rest) w2
                      = exec_commands m rest w3).
    { intros w2 Hw2. destruct (IH w2) as (w3 & Hc3 & Heq).
      - intros k c Hk. rewrite Hw2. simpl. rewrite <- executed_cons.
        by apply (Hok (S k) c).
      - exists w3. split; [|done]. by rewrite Hc3, Hw2, executed_cons. }
    destruct Hfirst as [->|[rows ->]].
    + by apply Hrest.
    + unfold bind, log. by apply Hrest.
Qed.

Lemma read_source_emit (m : Migrator) (path : string) (entry : LogEntry)
    (w : World) r :
  read_source m path w = Returns r w →
  read_source m path (emit entry w) = Returns r (emit entry w).
Proof.
  unfold read_source. destruct (Source m);
    unfold bind, ReadFile, ret; simpl; intros [=]; by subst.
Qed.

(** C4. In [ApplyMigration], when one of the split statements fails to
    execute (those before it having succeeded), the open transaction is
    rolled back right after the failing statement and the operation fails:
    with the error of the statement if the rollback succeeds, with the
    error of the rollback if the rollback fails too. In both cases the
    migration, its Status included, is as before. *)
Theorem ApplyMigration_statement_failure (m : Migrator) (mig : Migration)
    (mType : migrationType) (w : World) (path sql : string)
    (pre : list string) (cmd : string) (post : list string) (e : error) :
  migration_path mig mType = Some path →
  read_source m path w = Returns (Some (inl sql)) w →
  db_Begin (DB m) (calls w) = None →
  GetMigrationCommands (dbAdapter m) sql = pre ++ cmd :: post →
  (∀ k c, pre !! k = Some c →
     statement_ok
       (tx_Exec (DB m) (executed (take k pre) (CBegin :: calls w)) c [])) →
  tx_Exec (DB m) (executed pre (CBegin :: calls w)) cmd [] = ExecFail e →
  let h := CTxExec cmd [] :: executed pre (CBegin :: calls w) in
  ∃ err w',
    ApplyMigration m mig mType w = Returns (mig, Some err) w'
    ∧ calls w' = CTxRollback :: h
    ∧ (tx_Rollback (DB m) h = None → err = e)
    ∧ (∀ rollbackErr, tx_Rollback (DB m) h = Some rollbackErr →
         err = rollbackErr).
Proof.
  intros Hpath Hread Hbegin Hcmds Hpre Hfail h.
  exists (default e (tx_Rollback (DB m) h)).
  unfold ApplyMigration. rewrite Hpath.
  unfold bind at 1. unfold log at 1. unfold bind at 1.
  rewrite (read_source_emit _ _ _ _ _ Hread).
  unfold bind at 1. unfold Begin at 1, db_call at 1. simpl.
  rewrite Hbegin, Hcmds. unfold bind at 1.
  match goal with |- context [exec_commands m (pre ++ ?r) ?w1] =>
    destruct (exec_commands_prefix m pre r w1) as (w2 & Hc2 & ->);
      [exact Hpre|] end.
  simpl in Hc2. simpl. unfold bind at 1. unfold TxExec at 1, db_call at 1.
  rewrite Hc2, Hfail. unfold bind at 1. unfold log at 1. simpl.
  match goal with |- context [rollback_after ?m ?e ?w3] =>
    destruct (rollback_after_returns m e w3) as (w4 & -> & Hc4) end.
  simpl in Hc4. fold h in Hc4. simpl. fold h.
  exists w4. split; [done|]. split; [done|].
  split; [by intros ->|by intros re ->].
Qed.

(** ** Bulk operations (C7, C1) *)

Lemma with_migrations_id (m : Migrator) : with_migrations (migrations m) m = m.
Proof. by destruct m. Qed.

Lemma apply_at_registry (m : Migrator) (p : N) (mType : migrationType)
    (w : World) (mig : Migration) :
  migrations m !! p = Some mig →
  ∃ err w',
    apply_at m p mType w
    = Returns
        (with_migrations
           (if err is Some _ then migrations m
            else <[p := set_Status
                          (if decide (mType = upMigration)
                           then Active else Inactive) mig]> (migrations m))
           m, err) w'.
Proof.
  intros Hp. unfold apply_at. rewrite Hp. unfold bind.
  destruct (ApplyMigration_cases m mig mType w)
    as (mig' & err & w' & -> & _ & Hmig).
  exists err, w'. unfold ret. simpl. destruct err as [e|].
  - subst mig'. by rewrite insert_id.
  - by destruct Hmig as [-> _].
Qed.

Lemma Migrate_loop_ok (ptrs : list N) (m : Migrator) (w : World)
    (m' : Migrator) (w' : World) :
  (∀ p, p ∈ ptrs → is_Some (migrations m !! p)) →
  Migrate_loop m ptrs w = Returns (m', None) w' →
  (∃ ms', m' = with_migrations ms' m)
  ∧ ∀ q, migrations m' !! q
         = if decide (q ∈ ptrs) then set_Status Active <$> migrations m !! q
           else migrations m !! q.
Proof.
  revert m w. induction ptrs as [|p rest IH]; intros m w Hptrs; simpl.
  - unfold ret. intros [= <- <-]. split.
    + exists (migrations m). by rewrite with_migrations_id.
    + intros q. destruct (decide (q ∈ [])) as [Hq|_]; [|done].
      by apply elem_of_nil in Hq.
  - destruct (Hptrs p) as [mig Hp]; [by left|].
    unfold bind.
    destruct (apply_at_registry m p upMigration w mig Hp) as (err & w1 & ->).
    destruct err as [e|]; simpl; [by unfold ret|].
    set (m1 := with_migrations _ m). intros Hloop.
    apply IH in Hloop as [[ms' ->] Hlook].
    2: { intros q Hq. simpl. apply lookup_insert_is_Some'. right.
         apply Hptrs. by right. }
    split; [by exists ms'|].
    intros q. rewrite Hlook. simpl.
    destruct (decide (q = p)) as [->|Hne].
    + rewrite lookup_insert_eq, Hp.
      destruct (decide (p ∈ p :: rest)) as [_|Hnot]; [|by destruct Hnot; left].
      by destruct (decide (p ∈ rest)).
    + rewrite lookup_insert_ne by done.
      destruct (decide (q ∈ rest)) as [Hq|Hq];
        destruct (decide (q ∈ p :: rest)) as [Hq'|Hq']; try done.
      * destruct Hq'. by right.
      * apply elem_of_cons in Hq' as [?|?]; done.
Qed.

(** C7. [Migrate] is idempotent: after a [Migrate] that returned no error
    no migration of the registry is Inactive (every one is Active, the
    statuses being Inactive or Active), the list of the Inactive ones is
    empty, and a second [Migrate] returns no error and leaves the migrator
    and the world as they were: no statement is executed, nothing is
    logged. *)
Theorem Migrate_idempotent (m : Migrator) (w : World) (m' : Migrator)
    (w' : World) :
  Migrate range m w = Returns (m', None) w' →
  (∀ key migration,
     migrations m' !! key = Some migration → Status migration ≠ Inactive)
  ∧ (statuses_known (migrations m) →
     ∀ key migration,
       migrations m' !! key = Some migration → Status migration = Active)
  ∧ Migrations range m' Inactive = []
  ∧ Migrate range m' w' = Returns (m', None) w'.
Proof.
  intros Hfirst. unfold Migrate in Hfirst.
  apply Migrate_loop_ok in Hfirst as [_ Hlook].
  2: { intros p Hp. apply elem_of_Migrations in Hp as (mig & Hmig & _).
       by eexists. }
  assert (Hcases : ∀ key migration,
    migrations m' !! key = Some migration →
    Status migration = Active
    ∨ migrations m !! key = Some migration ∧ Status migration ≠ Inactive).
  { intros key mig'. rewrite Hlook.
    destruct (decide (key ∈ Migrations range m Inactive)) as [Hin|Hout].
    - destruct (migrations m !! key); simpl; [|done]. intros [= <-].
      by left.
    - intros Hmig. right. split; [done|]. intros Hinactive.
      destruct Hout. apply elem_of_Migrations. exists mig'. by auto. }
  assert (Hnone : ∀ key migration,
    migrations m' !! key = Some migration → Status migration ≠ Inactive).
  { intros key mig Hmig.
    destruct (Hcases key mig Hmig) as [->|[_ ?]]; done. }
  assert (Hempty : Migrations range m' Inactive = []).
  { destruct (Migrations range m' Inactive) as [|p rest] eqn:Hlist; [done|].
    assert (Hp : p ∈ Migrations range m' Inactive) by (rewrite Hlist; by left).
    apply elem_of_Migrations in Hp as (mig & Hmig & [Hany|Hstatus]);
      [done|]. by destruct (Hnone _ _ Hmig). }
  split; [done|]. split; [|split; [done|]].
  - intros Hknown key mig Hmig.
    destruct (Hcases key mig Hmig) as [?|[Hold Hstatus]]; [done|].
    by destruct (Hknown _ _ Hold).
  - unfold Migrate. by rewrite Hempty.
Qed.

Lemma RollbackN_loop_overrun (ptrs : list N) (last_migration : Z) (k : nat)
    (m : Migrator) (w : World) :
  (last_migration < -1)%Z →
  ∀ m' w', RollbackN_loop ptrs last_migration k m w ≠ Returns (m', None) w'.
Proof.
  intros Hlast. revert m w. induction k as [|k IH]; intros m w m' w';
    rewrite RollbackN_loop_eq; cbv zeta;
    (destruct (decide _) as [Hstop|_]; [lia|]); [done|].
  destruct (index ptrs (Z.of_nat (S k) - 1)) as [p|]; [|done].
  unfold bind. destruct (apply_at m p downMigration w) as [r w1| |];
    [|done|done].
  destruct (r.2); [by unfold ret|]. apply IH.
Qed.

(** With some Active migration and [n] larger than their number,
    [RollbackN(n)] never returns without an error: once every Active
    migration is reverted the loop goes on to [migrations[-1]]. *)
Lemma RollbackN_overlarge_never_nil (m : Migrator) (n : Z) (w : World) :
  Migrations range m Active ≠ [] →
  (len (Migrations range m Active) < n ≤ int_max)%Z →
  ∀ m' w', RollbackN range m n w ≠ Returns (m', None) w'.
Proof.
  intros Hsome Hn m' w'. unfold RollbackN.
  destruct (decide _) as [Hlen|_]; [by apply len_nil_iff in Hlen|].
  apply RollbackN_loop_overrun.
  rewrite wrap64_id; unfold len, int_min, int_max in *; lia.
Qed.

(** ** Discovery (C5) *)

Lemma valid_true_iff (mig : Migration) :
  valid mig = true
  ↔ Id mig ≠ 0%N ∧ Name mig ≠ "" ∧ UpPath mig ≠ "" ∧ DownPath mig ≠ "".
Proof.
  unfold valid.
  destruct (decide (Id mig ≠ 0%N)), (decide (Name mig ≠ "")),
    (decide (UpPath mig ≠ "")), (decide (DownPath mig ≠ ""));
    repeat (rewrite bool_decide_eq_true_2 by done);
    repeat (rewrite bool_decide_eq_false_2 by done);
    simpl; rewrite ?andb_false_r; simpl; split; try done; intros (?&?&?&?); done.
Qed.

Lemma validate_loop_spec (entries : list (N * Migration)) (w : World) :
  ∃ err w', validate_loop entries w = Returns err w'
    ∧ (err = None ∧ Forall (λ entry, valid entry.2 = true) entries
       ∨ err = Some InvalidMigrationPair
         ∧ Exists (λ entry, valid entry.2 = false) entries).
Proof.
  induction entries as [|[key mig] rest IH]; simpl.
  - eexists _, _. split; [done|]. left. by split.
  - destruct (valid mig) eqn:Hvalid; simpl.
    + destruct IH as (err & w' & -> & [[-> Hall]|[-> Hex]]);
        eexists _, _; (split; [done|]).
      * left. split; [done|]. by constructor.
      * right. split; [done|]. by apply Exists_cons_tl.
    + unfold bind, log, ret; simpl. eexists _, _. split; [done|].
      right. split; [done|]. by apply Exists_cons_hd.
Qed.

Lemma find_tail_spec (ms : registry) (w : World) :
  ∃ err w', find_tail range ms w = Returns (ms, err) w'
    ∧ (err = None ∧ (∀ key mig, ms !! key = Some mig → valid mig = true)
       ∨ err = Some InvalidMigrationPair
         ∧ ∃ key mig, ms !! key = Some mig ∧ valid mig = false).
Proof.
  unfold find_tail, bind.
  destruct (validate_loop_spec (range ms) w)
    as (err & w' & -> & [[-> Hall]|[-> Hex]]); unfold log, ret; simpl;
    eexists _, _; (split; [done|]).
  - left. split; [done|]. intros key mig Hmig.
    rewrite Forall_forall in Hall. apply (Hall (key, mig)).
    rewrite range_perm. by apply elem_of_map_to_list.
  - right. split; [done|]. apply Exists_exists in Hex as ([key mig] & Hin & ?).
    exists key, mig. split; [|done].
    rewrite range_perm in Hin. by apply elem_of_map_to_list in Hin.
Qed.

Lemma pair_loop_skips (name_of : string → string) (matches : list string)
    (ms : registry) (w w2 : World) :
  ∃ ms' w' w2',
    pair_loop parseMigrationPath name_of matches ms w = Returns ms' w'
    ∧ pair_loop parseMigrationPath name_of
        (filter (λ mt, is_Some (parseMigrationPath (name_of mt))) matches)
        ms w2
      = Returns ms' w2'.
Proof.
  revert ms w w2. induction matches as [|mt rest IH]; intros ms w w2.
  - by eexists _, _, _.
  - destruct (parseMigrationPath (name_of mt)) as [[[num mtype] name]|]
      eqn:Hparse.
    + rewrite filter_cons_True by (by rewrite Hparse).
      simpl. rewrite Hparse. unfold bind, log. apply IH.
    + rewrite filter_cons_False by (rewrite Hparse; by intros [? ?]).
      simpl. rewrite Hparse. unfold bind, log. apply IH.
Qed.

(** C5. For every list of artifacts that a source enumerates,
    [FindMigrations], in the file and in the asset variant, returns, and
    either it returns no error and every migration of the registry has an
    id other than 0 and a non-empty name, up location and down location,
    or it returns the invalid-pair error, some migration of the registry
    being invalid. The names that do not parse are skipped and cause no
    failure: the registry is the one the pairing builds from the names
    that parse. *)
Theorem FindMigrations_valid_or_pair_error (s : MigrationSource)
    (logger : Logger) (w : World) (matches : list string) :
  enumerates s w matches →
  ∃ ms err w',
    FindMigrations parseMigrationPath range s logger w = Returns (ms, err) w'
    ∧ (err = None
       ∧ (∀ key mig, ms !! key = Some mig →
            Id mig ≠ 0%N ∧ Name mig ≠ "" ∧ UpPath mig ≠ ""
            ∧ DownPath mig ≠ "")
       ∨ err = Some InvalidMigrationPair
         ∧ ∃ key mig, ms !! key = Some mig ∧ valid mig = false)
    ∧ ∀ w2, ∃ w2',
        pair_loop parseMigrationPath (artifact_name s)
          (filter (λ mt, is_Some (parseMigrationPath (artifact_name s mt)))
             matches) ∅ w2
        = Returns ms w2'.
Proof.
  intros Henum.
  assert (Hgoal : ∀ name_of w1,
    (∀ mt, artifact_name s mt = name_of mt) →
    ∃ ms err w',
      (ms0 <- pair_loop parseMigrationPath name_of matches ∅ ;;
       find_tail range ms0) w1 = Returns (ms, err) w'
      ∧ (err = None
         ∧ (∀ key mig, ms !! key = Some mig →
              Id mig ≠ 0%N ∧ Name mig ≠ "" ∧ UpPath mig ≠ ""
              ∧ DownPath mig ≠ "")
         ∨ err = Some InvalidMigrationPair
           ∧ ∃ key mig, ms !! key = Some mig ∧ valid mig = false)
      ∧ ∀ w2, ∃ w2',
          pair_loop parseMigrationPath (artifact_name s)
            (filter (λ mt, is_Some (parseMigrationPath (artifact_name s mt)))
               matches) ∅ w2
          = Returns ms w2').
  { intros name_of w1 Hname. unfold bind.
    destruct (pair_loop_skips name_of matches ∅ w1 w1)
      as (ms & w1' & _ & Hms & _). rewrite Hms.
    destruct (find_tail_spec ms w1') as (err & w' & -> & Herr).
    exists ms, err, w'. split; [done|]. split.
    - destruct Herr as [[-> Hall]|[-> Hex]]; [left|by right].
      split; [done|]. intros key mig Hmig. by apply valid_true_iff, (Hall key).
    - intros w2.
      destruct (pair_loop_skips (artifact_name s) matches ∅ w1 w2)
        as (ms2 & w3 & w2' & Hms2 & Hskip).
      exists w2'. rewrite Hskip. do 2 f_equal.
      assert (Hsame : pair_loop parseMigrationPath (artifact_name s) matches
                        ∅ w1
                      = pair_loop parseMigrationPath name_of matches ∅ w1).
      { clear -Hname. generalize (∅ : registry) as ms0. revert w1.
        induction matches as [|mt rest IH]; intros w1 ms0; [done|].
        simpl. rewrite Hname.
        destruct (parseMigrationPath (name_of mt)) as [[[num mtype] name]|];
          unfold bind, log; apply IH. }
      rewrite Hsame, Hms in Hms2. by injection Hms2. }
  destruct s as [f|a|f|a]; simpl in Henum |- *.
  - destruct Henum as [Hdir Hglob].
    destruct (Dir_last_byte _ Hdir) as [last Hlast].
    unfold File_FindMigrations. rewrite Hlast.
    unfold bind at 1. unfold log at 1. unfold bind at 1. unfold Glob at 1.
    simpl. rewrite Hglob. unfold ret at 1. by apply Hgoal.
  - unfold Asset_FindMigrations. rewrite Henum. by apply Hgoal.
  - destruct Henum as [Hdir Hglob].
    destruct (Dir_last_byte _ Hdir) as [last Hlast].
    unfold File_FindMigrations. rewrite Hlast.
    unfold bind at 1. unfold log at 1. unfold bind at 1. unfold Glob at 1.
    simpl. rewrite Hglob. unfold ret at 1. by apply Hgoal.
  - unfold Asset_FindMigrations. rewrite Henum. by apply Hgoal.
Qed.

(** ** Bootstrap (C2) *)

(** [CreateMigrationsTable] has no path on which it returns an error. *)
Lemma CreateMigrationsTable_returns_nil (m : Migrator) (w : World)
    (err : option error) (w' : World) :
  CreateMigrationsTable m w = Returns err w' → err = None.
Proof.
  unfold CreateMigrationsTable, bind, Exec, db_call; simpl.
  destruct (db_Exec (DB m) (calls w) (CreateMigrationTableSql (dbAdapter m)))
    as [e|]; unfold fatalf, log, ret; simpl.
  - destruct (fatalf_returns (logger m)); [|done]. by intros [= <- _].
  - by intros [= <- _].
Qed.

(** C2, as the code has it. During construction, when the probe reports
    the log table absent and the statement creating it fails, the failure
    is handed to [Fatalf] of the logger; with a logger whose [Fatalf] ends
    the process, as that of the standard logger does, construction ends
    there: after the probe and the failed creation the process exits, and
    neither a migrator nor an error is returned to the caller. *)
Theorem creation_failure_is_fatal (db : Driver) (adapter : Migratable)
    (ms : MigrationSource) (logger : Logger) (w : World) (e : error) :
  let probe :=
    CQueryRow (SelectMigrationTableSql adapter) (AStr migrationTableName) in
  db_QueryRow db (calls w) (SelectMigrationTableSql adapter)
    (AStr migrationTableName) = Some ErrNoRows →
  db_Exec db (probe :: calls w) (CreateMigrationTableSql adapter) = Some e →
  fatalf_returns logger = false →
  ∃ w',
    NewMigratorWithLogger parseMigrationPath range db adapter ms logger w
    = Exits w'
    ∧ calls w' = CExec (CreateMigrationTableSql adapter) :: probe :: calls w
    ∧ head (output w')
      = Some (mkLogEntry Fatalf "Error creating migrations table: %v"
                [LErr e]).
Proof.
  intros probe Hprobe Hcreate Hfatal.
  unfold NewMigratorWithLogger, bind at 1.
  unfold MigrationTableExists, bind at 1, QueryRow, db_call at 1. simpl.
  rewrite Hprobe. destruct (decide _) as [_|Hne]; [|done].
  unfold bind at 1, log at 1, ret at 1. simpl.
  unfold bind at 1, CreateMigrationsTable, bind at 1, Exec, db_call at 1.
  simpl. fold probe. rewrite Hcreate.
  unfold bind at 1, fatalf. simpl. rewrite Hfatal. by eexists.
Qed.

(** ** The registry of a constructed migrator *)





End Properties.

(** * The properties on concrete inputs *)

Local Open Scope list_scope.

Lemma range_list_perm (ms : registry) : range_list ms ≡ₚ map_to_list ms.
Proof. done. Qed.

Lemma demo_registry_lookup (s1 s2 : Z) (key : N) (mig : Migration) :
  demo_registry s1 s2 !! key = Some mig →
  key = 1%N ∧ mig = demo_migration 1 "001_init" s1
  ∨ key = 2%N ∧ mig = demo_migration 2 "002_add_col" s2.
Proof.
  unfold demo_registry. intros Hkey.
  apply lookup_insert_Some in Hkey as [[<- <-]|[_ Hkey]]; [by left|].
  apply lookup_insert_Some in Hkey as [[<- <-]|[_ Hkey]]; [by right|].
  by rewrite lookup_empty in Hkey.
Qed.

Lemma demo_registry_keyed (s1 s2 : Z) : keyed (demo_registry s1 s2).
Proof.
  intros key mig Hkey.
  by apply demo_registry_lookup in Hkey as [[-> ->]|[-> ->]].
Qed.

Lemma RollbackN_no_active_witness :
  RollbackN range_list (demo_migrator db_ok (demo_registry Inactive Inactive))
    5 w0
  = Returns (demo_migrator db_ok (demo_registry Inactive Inactive), None) w0.
Proof. apply RollbackN_no_active. reflexivity. Defined.

Lemma RollbackN_zero_witness :
  RollbackN range_list (demo_migrator db_ok (demo_registry Active Active))
    0 w0
  = Returns (demo_migrator db_ok (demo_registry Active Active), None) w0.
Proof.
  apply (RollbackN_zero range_list
           (demo_migrator db_ok (demo_registry Active Active)) w0).
  - vm_compute. discriminate.
  - vm_compute. discriminate.
Defined.

Lemma Migrations_sorted_exact_witness :
  Migrations range_list
    (demo_migrator db_ok (demo_registry Active Inactive)) (-1)
  = [1%N; 2%N]
  ∧ Migrations range_list
      (demo_migrator db_ok (demo_registry Active Inactive)) Active
    = [1%N]
  ∧ StronglySorted (λ a b, (Id a < Id b)%N)
      (pointees (demo_migrator db_ok (demo_registry Active Inactive))
         (Migrations range_list
            (demo_migrator db_ok (demo_registry Active Inactive)) (-1))).
Proof.
  split; [reflexivity|]. split; [reflexivity|].
  apply (Migrations_sorted_exact range_list range_list_perm
           (demo_migrator db_ok (demo_registry Active Inactive)) (-1)).
  apply demo_registry_keyed.
Defined.

Lemma ApplyMigration_statement_failure_witness :
  (∃ w', ApplyMigration
           (demo_migrator (db_statement_fails false)
              (demo_registry Inactive Inactive))
           (demo_migration 1 "001_init" Inactive) upMigration w0
         = Returns (demo_migration 1 "001_init" Inactive,
                    Some (ExternalError "syntax error")) w')
  ∧ (∃ w', ApplyMigration
             (demo_migrator (db_statement_fails true)
                (demo_registry Inactive Inactive))
             (demo_migration 1 "001_init" Inactive) upMigration w0
           = Returns (demo_migration 1 "001_init" Inactive,
                      Some (ExternalError "connection lost")) w').
Proof.
  split.
  - destruct (ApplyMigration_statement_failure
                (demo_migrator (db_statement_fails false)
                   (demo_registry Inactive Inactive))
                (demo_migration 1 "001_init" Inactive) upMigration w0
                "db/001_init.up.sql" "first;second" ["first"] "second" []
                (ExternalError "syntax error"))
      as (err & w' & Heq & _ & Hok & _).
    + reflexivity.
    + reflexivity.
    + reflexivity.
    + reflexivity.
    + intros [|k] c; simpl; intros [= <-]. left. reflexivity.
    + reflexivity.
    + exists w'. rewrite Heq. by rewrite Hok.
  - destruct (ApplyMigration_statement_failure
                (demo_migrator (db_statement_fails true)
                   (demo_registry Inactive Inactive))
                (demo_migration 1 "001_init" Inactive) upMigration w0
                "db/001_init.up.sql" "first;second" ["first"] "second" []
                (ExternalError "syntax error"))
      as (err & w' & Heq & _ & _ & Hfails).
    + reflexivity.
    + reflexivity.
    + reflexivity.
    + reflexivity.
    + intros [|k] c; simpl; intros [= <-]. left. reflexivity.
    + reflexivity.
    + exists w'. rewrite Heq.
      by rewrite (Hfails (ExternalError "connection lost")).
Defined.

Lemma FindMigrations_valid_or_pair_error_witness :
  enumerates demo_source w0 demo_matches
  ∧ ∃ ms err w',
      FindMigrations demo_parse range_list demo_source std_logger w0
      = Returns (ms, err) w'
      ∧ (err = None ∨ err = Some InvalidMigrationPair).
Proof.
  assert (Henum : enumerates demo_source w0 demo_matches).
  { split; [discriminate|reflexivity]. }
  split; [exact Henum|].
  destruct (FindMigrations_valid_or_pair_error demo_parse range_list
              range_list_perm demo_source std_logger w0 demo_matches Henum)
    as (ms & err & w' & Heq & Herr & _).
  exists ms, err, w'. split; [exact Heq|].
  destruct Herr as [[-> _]|[-> _]]; [by left|by right].
Defined.

Lemma Migrate_idempotent_witness :
  let m := demo_migrator db_ok (demo_registry Inactive Inactive) in
  let m' := demo_migrator db_ok (demo_registry Active Active) in
  let w' := world_of (Migrate range_list m w0) in
  Migrate range_list m w0 = Returns (m', None) w'
  ∧ Migrate range_list m' w' = Returns (m', None) w'.
Proof.
  intros m m' w'.
  assert (Hfirst : Migrate range_list m w0 = Returns (m', None) w')
    by (vm_compute; reflexivity).
  split; [exact Hfirst|].
  apply (Migrate_idempotent range_list range_list_perm m w0 m' w').
  exact Hfirst.
Defined.

Lemma creation_failure_is_fatal_witness :
  ∃ w', NewMigratorWithLogger demo_parse range_list db_no_table demo_adapter
          demo_source std_logger w0
        = Exits w'.
Proof.
  destruct (creation_failure_is_fatal demo_parse range_list db_no_table
              demo_adapter demo_source std_logger w0
              (ExternalError "permission denied"))
    as (w' & Heq & _); [reflexivity|reflexivity|reflexivity|].
  by exists w'.
Defined.

(** C2, as the claim has it, fails: on a database without the log table
    that refuses to create it, and with the standard logger, the
    constructor does not return the failure to its caller as an error. *)
Lemma creation_failure_not_returned :
  db_QueryRow db_no_table (calls w0) (SelectMigrationTableSql demo_adapter)
    (AStr migrationTableName) = Some ErrNoRows
  ∧ db_Exec db_no_table
      (CQueryRow (SelectMigrationTableSql demo_adapter)
         (AStr migrationTableName) :: calls w0)
      (CreateMigrationTableSql demo_adapter)
    = Some (ExternalError "permission denied")
  ∧ ¬ ∃ err w',
        NewMigratorWithLogger demo_parse range_list db_no_table demo_adapter
          demo_source std_logger w0
        = Returns (None, Some err) w'.
Proof.
  split; [reflexivity|]. split; [reflexivity|].
  intros (err & w' & Hret). vm_compute in Hret. discriminate Hret.
Qed.

(** C1 on a concrete migrator: with the two migrations Active and the
    database answering every call with success, [RollbackN(3)] reverts
    migration 2, then migration 1, each in its transaction, and then
    panics on [migrations[-1]]; it does not return. *)
Theorem RollbackN_overlarge_panics :
  let m := demo_migrator db_ok (demo_registry Active Active) in
  let delete := MigrationLogDeleteSql demo_adapter in
  Migrations range_list m Active = [1%N; 2%N]
  ∧ ∃ w',
      RollbackN range_list m 3 w0 = Panics "index out of range" w'
      ∧ calls w'
        = [CTxCommit; CTxExec delete [AId 1]; CTxExec "second" [];
           CTxExec "first" []; CBegin;
           CTxCommit; CTxExec delete [AId 2]; CTxExec "second" [];
           CTxExec "first" []; CBegin].
Proof.
  intros m delete. split; [reflexivity|].
  exists (world_of (RollbackN range_list m 3 w0)).
  split; vm_compute; reflexivity.
Qed.

Lemma File_FindMigrations_needs_Dir_witness :
  File_FindMigrations demo_parse range_list {| file_Dir := "" |} std_logger w0
  = Panics "index out of range" w0.
Proof.
  apply (File_FindMigrations_needs_Dir demo_parse range_list
           {| file_Dir := "" |} std_logger w0).
  reflexivity.
Defined.

Lemma ApplyMigration_status_on_commit_witness :
  ∃ w', ApplyMigration
          (demo_migrator db_commit_fails (demo_registry Inactive Inactive))
          (demo_migration 1 "001_init" Inactive) upMigration w0
        = Returns (demo_migration 1 "001_init" Inactive,
                   Some (ExternalError "connection lost")) w'.
Proof.
  destruct (ApplyMigration_status_on_commit
              (demo_migrator db_commit_fails (demo_registry Inactive Inactive))
              (demo_migration 1 "001_init" Inactive) upMigration w0)
    as (mig' & err & w' & Heq & _ & _ & Hfails).
  exists w'. rewrite Heq.
  destruct (Hfails (ExternalError "connection lost")) as [-> ->]; [|done].
  assert (Hcalls : calls w'
                   = CTxCommit
                     :: [CTxExec (MigrationLogInsertSql demo_adapter) [AId 1];
                         CTxExec "second" []; CTxExec "first" []; CBegin]
                     ++ calls w0).
  { change w' with (world_of (Returns (mig', err) w')). by rewrite <- Heq. }
  eexists. split; [exact Hcalls|reflexivity].
Defined.

(** ** The scenarios of the specification *)

(** Discovery in ["db/"]: the two pairs, both Inactive; the file that does
    not parse is skipped. *)
Example discovery_scenario :
  ∃ w', FindMigrations demo_parse range_list demo_source std_logger w0
        = Returns (<[1%N := {| DownPath := "db/001_init.down.sql"; Id := 1;
                               Name := "init"; Status := Inactive;
                               UpPath := "db/001_init.up.sql" |}]>
                     (<[2%N := {| DownPath := "db/002_add_col.down.sql";
                                   Id := 2; Name := "add_col";
                                   Status := Inactive;
                                   UpPath := "db/002_add_col.up.sql" |}]> ∅),
                   None) w'.
Proof. eexists. vm_compute. reflexivity. Qed.

(** An up file without its down file: the pairing error. *)
Example broken_pair_scenario :
  ∃ ms w', FindMigrations demo_parse range_list
             (FileSourcePtr {| file_Dir := "broken/" |}) std_logger w0
           = Returns (ms, Some InvalidMigrationPair) w'.
Proof. eexists _, _. vm_compute. reflexivity. Qed.

(** [Migrate] makes both migrations Active; [RollbackN(1)] then reverts
    migration 2 and leaves migration 1 Active. *)
Example migrate_then_rollback_scenario :
  let m := demo_migrator db_ok (demo_registry Inactive Inactive) in
  ∃ w1 w2,
    Migrate range_list m w0
    = Returns (demo_migrator db_ok (demo_registry Active Active), None) w1
    ∧ RollbackN range_list (demo_migrator db_ok (demo_registry Active Active))
        1 w1
      = Returns (demo_migrator db_ok (demo_registry Active Inactive), None) w2.
Proof.
  intros m. eexists _, _. split; vm_compute; reflexivity.
Qed.

(** [RollbackAll] reverts both. *)
Example rollback_all_scenario :
  ∃ w', RollbackAll range_list
          (demo_migrator db_ok (demo_registry Active Active)) w0
        = Returns (demo_migrator db_ok (demo_registry Inactive Inactive),
                   None) w'.
Proof. eexists. vm_compute. reflexivity. Qed.

(** With a logger whose [Fatalf] returns, construction goes on after the
    failed creation of the log table. *)
Example creation_failure_with_returning_Fatalf :
  ∃ m w', NewMigratorWithLogger demo_parse range_list db_no_table
            demo_adapter demo_source {| fatalf_returns := true |} w0
          = Returns (Some m, None) w'.
Proof. eexists _, _. vm_compute. reflexivity. Qed.

(** A source passed by value is unknown to the type switch. *)
Example value_source_unsupported :
  ∃ w', ApplyMigration
          (mkMigrator db_ok demo_adapter (demo_registry Inactive Inactive)
             std_logger (FileSourceVal {| file_Dir := "db/" |}))
          (demo_migration 1 "001_init" Inactive) upMigration w0
        = Returns (demo_migration 1 "001_init" Inactive,
                   Some UnsupportedSource) w'.
Proof. eexists. vm_compute. reflexivity. Qed.

(** * Further properties of the engine *)

Section Further.

Local Open Scope list_scope.

Context (parseMigrationPath : string → option (N * migrationType * string)).
Context (range : registry → list (N * Migration)).
Hypothesis range_perm : ∀ ms, range ms ≡ₚ map_to_list ms.

(** ** The loops as plain iterations *)

Lemma Migrate_loop_in_order (ptrs : list N) (m : Migrator) (w : World) :
  Migrate_loop m ptrs w = apply_in_order upMigration ptrs m w.
Proof.
  revert m w. induction ptrs as [|p rest IH]; intros m w; [done|].
  simpl. unfold bind.
  destruct (apply_at m p upMigration w) as [r w1| |]; [|done|done].
  destruct (r.2); [done|]. apply IH.
Qed.

Lemma RollbackN_loop_in_order (ptrs : list N) (last_migration : Z) (k : nat)
    (m : Migrator) (w : World) :
  (-1 ≤ last_migration ≤ Z.of_nat k - 1)%Z →
  (k ≤ length ptrs)%nat →
  RollbackN_loop ptrs last_migration k m w
  = apply_in_order downMigration
      (rev (drop (Z.to_nat (last_migration + 1)) (take k ptrs))) m w.
Proof.
  revert m w. induction k as [|k IH]; intros m w Hlast Hk.
  - rewrite RollbackN_loop_stop by lia.
    change (take 0 ptrs) with (@nil N). by rewrite drop_nil.
  - destruct (decide (Z.of_nat (S k) - 1 = last_migration)%Z) as [Hstop|Hgo].
    + rewrite RollbackN_loop_stop by done.
      rewrite drop_ge; [done|]. rewrite length_take. lia.
    + rewrite RollbackN_loop_eq. cbv zeta.
      destruct (decide _) as [?|_]; [done|].
      replace (Z.of_nat (S k) - 1)%Z with (Z.of_nat k) by lia.
      rewrite index_nat.
      destruct (lookup_lt_is_Some_2 ptrs k) as [p Hp]; [lia|].
      rewrite Hp, (take_S_r _ _ _ Hp).
      rewrite drop_app_le by (rewrite length_take; lia).
      rewrite rev_unit. simpl. unfold bind.
      destruct (apply_at m p downMigration w) as [r w1| |]; [|done|done].
      destruct (r.2); [done|]. apply IH; lia.
Qed.

Lemma RollbackN_in_order (m : Migrator) (n : Z) (w : World) :
  let A := Migrations range m Active in
  (0 ≤ n ≤ len A)%Z →
  (len A ≤ int_max)%Z →
  RollbackN range m n w
  = apply_in_order downMigration (rev (drop (length A - Z.to_nat n) A)) m w.
Proof.
  intros A Hn Hfit. unfold RollbackN. fold A.
  destruct (decide (len A = 0%Z)) as [Hnil|Hsome].
  - apply len_nil_iff in Hnil. by rewrite Hnil.
  - rewrite wrap64_id by (unfold len, int_min, int_max in *; lia).
    rewrite RollbackN_loop_in_order by (unfold len in *; lia).
    rewrite firstn_all.
    by replace (Z.to_nat (len A - 1 - n + 1)) with (length A - Z.to_nat n)%nat
      by (unfold len in *; lia).
Qed.

(** ** What a run of applications leaves in the registry *)

Lemma apply_in_order_ok (mType : migrationType) (ptrs : list N)
    (m : Migrator) (w : World) (m' : Migrator) (w' : World) :
  (∀ p, p ∈ ptrs → is_Some (migrations m !! p)) →
  apply_in_order mType ptrs m w = Returns (m', None) w' →
  ∀ q, migrations m' !! q
       = if decide (q ∈ ptrs)
         then set_Status (status_after mType) <$> migrations m !! q
         else migrations m !! q.
Proof.
  revert m w. induction ptrs as [|p rest IH]; intros m w Hptrs; simpl.
  - unfold ret. intros [= <- <-] q.
    destruct (decide (q ∈ [])) as [Hq|_]; [|done].
    by apply elem_of_nil in Hq.
  - destruct (Hptrs p) as [mig Hp]; [by left|].
    unfold bind.
    destruct (apply_at_registry m p mType w mig Hp) as (err & w1 & ->).
    destruct err as [e|]; simpl; [by unfold ret|].
    intros Hloop q. apply IH with (q := q) in Hloop.
    2: { intros q' Hq'. simpl. apply lookup_insert_is_Some'. right.
         apply Hptrs. by right. }
    rewrite Hloop. simpl. fold (status_after mType).
    destruct (decide (q = p)) as [->|Hne].
    + rewrite lookup_insert_eq, Hp.
      destruct (decide (p ∈ p :: rest)) as [_|Hnot]; [|by destruct Hnot; left].
      by destruct (decide (p ∈ rest)).
    + rewrite lookup_insert_ne by done.
      destruct (decide (q ∈ rest)) as [Hq|Hq];
        destruct (decide (q ∈ p :: rest)) as [Hq'|Hq']; try done.
      * destruct Hq'. by right.
      * apply elem_of_cons in Hq' as [?|?]; done.
Qed.

Lemma apply_in_order_err (mType : migrationType) (ptrs : list N)
    (m : Migrator) (w : World) (m' : Migrator) (e : error) (w' : World) :
  (∀ p, p ∈ ptrs → is_Some (migrations m !! p)) →
  apply_in_order mType ptrs m w = Returns (m', Some e) w' →
  ∃ pre p post,
    ptrs = pre ++ p :: post
    ∧ ∀ q, migrations m' !! q
           = if decide (q ∈ pre)
             then set_Status (status_after mType) <$> migrations m !! q
             else migrations m !! q.
Proof.
  revert m w. induction ptrs as [|p rest IH]; intros m w Hptrs; simpl.
  - by unfold ret.
  - destruct (Hptrs p) as [mig Hp]; [by left|].
    unfold bind.
    destruct (apply_at_registry m p mType w mig Hp) as (err & w1 & ->).
    destruct err as [e1|]; simpl.
    + unfold ret. intros [= <- <- <-]. exists [], p, rest. split; [done|].
      intros q. simpl. destruct (decide (q ∈ [])) as [Hq|_]; [|done].
      by apply elem_of_nil in Hq.
    + intros Hloop. apply IH in Hloop as (pre & p' & post & -> & Hlook).
      2: { intros q' Hq'. simpl. apply lookup_insert_is_Some'. right.
           apply Hptrs. by right. }
      exists (p :: pre), p', post. split; [done|].
      intros q. rewrite Hlook. simpl. fold (status_after mType).
      destruct (decide (q = p)) as [->|Hne].
      * rewrite lookup_insert_eq, Hp.
        destruct (decide (p ∈ p :: pre)) as [_|Hnot];
          [|by destruct Hnot; left].
        by destruct (decide (p ∈ pre)).
      * rewrite lookup_insert_ne by done.
        destruct (decide (q ∈ pre)) as [Hq|Hq];
          destruct (decide (q ∈ p :: pre)) as [Hq'|Hq']; try done.
        -- destruct Hq'. by right.
        -- apply elem_of_cons in Hq' as [?|?]; done.
Qed.

Lemma strictly_sorted_NoDup (ids : list N) :
  StronglySorted N.lt ids → NoDup ids.
Proof.
  induction 1 as [|x ids Hsorted IH Hlt]; constructor; [|done].
  intros Hin. rewrite Forall_forall in Hlt. specialize (Hlt x Hin). lia.
Qed.

Lemma Migrations_NoDup (m : Migrator) (status : Z) :
  NoDup (Migrations range m status).
Proof. apply strictly_sorted_NoDup, Migrations_sorted, range_perm. Qed.

Lemma Migrations_lookup (m : Migrator) (status : Z) (p : N) :
  p ∈ Migrations range m status → is_Some (migrations m !! p).
Proof.
  intros Hp.
  apply (elem_of_Migrations range range_perm) in Hp as (mig & Hmig & _).
  by eexists.
Qed.

Lemma elem_of_rev (l : list N) (q : N) : q ∈ rev l ↔ q ∈ l.
Proof. rewrite !list_elem_of_In. symmetry. apply in_rev. Qed.

Lemma RollbackN_ok_lookup (m : Migrator) (n : Z) (w : World)
    (m' : Migrator) (w' : World) :
  let A := Migrations range m Active in
  (0 ≤ n ≤ len A)%Z →
  (len A ≤ int_max)%Z →
  RollbackN range m n w = Returns (m', None) w' →
  ∀ q, migrations m' !! q
       = if decide (q ∈ drop (length A - Z.to_nat n) A)
         then set_Status Inactive <$> migrations m !! q
         else migrations m !! q.
Proof.
  intros A Hn Hfit Hret q. rewrite RollbackN_in_order in Hret by done.
  apply apply_in_order_ok with (q := q) in Hret.
  2: { intros p Hp. rewrite elem_of_rev in Hp.
       apply (Migrations_lookup m Active). fold A.
       by apply (subseteq_drop (length A - Z.to_nat n) A). }
  rewrite Hret. fold A.
  destruct (decide (q ∈ rev (drop (length A - Z.to_nat n) A))) as [Hq|Hq];
    destruct (decide (q ∈ drop (length A - Z.to_nat n) A)) as [Hq'|Hq'];
    try done; rewrite elem_of_rev in Hq; done.
Qed.

(** ** Rollback of the last [n] (X1 to X4) *)

(** X1. For [0 <= n <= len(A)], [A] the Active migrations in ascending
    order, [RollbackN(n)] behaves as applying the direction down to the
    last [n] entries of [A], the highest id first, stopping at the first
    error; when it returns no error, exactly these [n] migrations have
    become Inactive and every other migration is as before. *)
Theorem RollbackN_reverts_last_n (m : Migrator) (n : Z) (w : World) :
  let A := Migrations range m Active in
  let reverted := drop (length A - Z.to_nat n) A in
  (0 ≤ n ≤ len A)%Z →
  (len A ≤ int_max)%Z →
  length reverted = Z.to_nat n
  ∧ RollbackN range m n w
    = apply_in_order downMigration (rev reverted) m w
  ∧ ∀ m' w',
      RollbackN range m n w = Returns (m', None) w' →
      ∀ q, migrations m' !! q
           = if decide (q ∈ reverted)
             then set_Status Inactive <$> migrations m !! q
             else migrations m !! q.
Proof.
  intros A reverted Hn Hfit. split; [|split].
  - unfold reverted. rewrite length_drop. unfold len in Hn. lia.
  - by apply RollbackN_in_order.
  - intros m' w' Hret. by apply (RollbackN_ok_lookup m n w m' w').
Qed.

(** X2. [Rollback], when it returns no error, has reverted exactly the
    Active migration of the highest id: that migration is now Inactive,
    and the registry is otherwise as before. *)
Theorem Rollback_reverts_highest (m : Migrator) (w : World) (m' : Migrator)
    (w' : World) (p : N) :
  last (Migrations range m Active) = Some p →
  (len (Migrations range m Active) ≤ int_max)%Z →
  Rollback range m w = Returns (m', None) w' →
  (∀ q, q ∈ Migrations range m Active → (q ≤ p)%N)
  ∧ ∃ mig, migrations m !! p = Some mig
      ∧ Status mig = Active
      ∧ migrations m' = <[p := set_Status Inactive mig]> (migrations m).
Proof.
  intros Hlast Hfit Hret. unfold Rollback in Hret.
  pose proof (Migrations_sorted range range_perm m Active) as Hsorted.
  apply last_Some in Hlast as [A' HA].
  assert (Hp : p ∈ Migrations range m Active)
    by (rewrite HA, elem_of_app; right; by left).
  apply (elem_of_Migrations range range_perm) in Hp
    as (mig & Hmig & [Hany|Hstatus]); [done|].
  split.
  - intros q. rewrite HA, elem_of_app. intros [Hq|Hq].
    + rewrite HA in Hsorted.
      pose proof (StronglySorted_app_1_elem_of _ _ _ q p Hsorted Hq) as Hlt.
      assert (q < p)%N by (apply Hlt; by left). lia.
    + apply list_elem_of_singleton in Hq as ->. lia.
  - exists mig. split; [done|]. split; [done|].
    apply map_eq. intros q.
    assert (Hone : (0 ≤ 1 ≤ len (Migrations range m Active))%Z).
    { rewrite HA. unfold len. rewrite length_app. simpl. lia. }
    rewrite (RollbackN_ok_lookup m 1 w m' w' Hone Hfit Hret q).
    rewrite HA, length_app.
    replace (length A' + length [p] - Z.to_nat 1)%nat with (length A')
      by (simpl; lia).
    rewrite drop_app_length.
    destruct (decide (q ∈ [p])) as [Hq|Hq].
    + apply list_elem_of_singleton in Hq as ->.
      by rewrite lookup_insert_eq, Hmig.
    + rewrite lookup_insert_ne; [done|]. intros <-. destruct Hq. by left.
Qed.

(** X3. [RollbackAll], when it returns no error, has made every Active
    migration Inactive and left every other migration as it was; no
    migration is Active afterwards. *)
Theorem RollbackAll_reverts_all (m : Migrator) (w : World) (m' : Migrator)
    (w' : World) :
  (len (Migrations range m Active) ≤ int_max)%Z →
  RollbackAll range m w = Returns (m', None) w' →
  (∀ q, migrations m' !! q
        = if decide (q ∈ Migrations range m Active)
          then set_Status Inactive <$> migrations m !! q
          else migrations m !! q)
  ∧ Migrations range m' Active = [].
Proof.
  intros Hfit Hret. unfold RollbackAll in Hret.
  assert (Hlook : ∀ q, migrations m' !! q
        = if decide (q ∈ Migrations range m Active)
          then set_Status Inactive <$> migrations m !! q
          else migrations m !! q).
  { intros q.
    assert (Hall : (0 ≤ len (Migrations range m Active)
                    ≤ len (Migrations range m Active))%Z)
      by (unfold len; lia).
    rewrite (RollbackN_ok_lookup m _ w m' w' Hall Hfit Hret q).
    unfold len. rewrite Nat2Z.id, Nat.sub_diag. by rewrite drop_0. }
  split; [done|].
  destruct (Migrations range m' Active) as [|p rest] eqn:Hlist; [done|].
  assert (Hp : p ∈ Migrations range m' Active) by (rewrite Hlist; by left).
  apply (elem_of_Migrations range range_perm) in Hp
    as (mig & Hmig & [Hany|Hstatus]); [done|].
  rewrite Hlook in Hmig.
  destruct (decide (p ∈ Migrations range m Active)) as [Hin|Hout].
  - destruct (migrations m !! p); simpl in Hmig; [|done].
    injection Hmig as <-. done.
  - destruct Hout. apply (elem_of_Migrations range range_perm).
    exists mig. by auto.
Qed.

Lemma wrap64_overflow (z : Z) :
  (int_max < z < 2 ^ 64 - int_min)%Z → wrap64 z = (z - 2 ^ 64)%Z.
Proof.
  unfold wrap64, int_min, int_max. intros Hz.
  replace (z - - 2 ^ 63)%Z with ((z - - 2 ^ 63 - 2 ^ 64) + 1 * 2 ^ 64)%Z
    by lia.
  rewrite Z_mod_plus_full, Z.mod_small; lia.
Qed.

Lemma RollbackN_loop_never_stops (ptrs : list N) (last_migration : Z)
    (k : nat) (m : Migrator) (w : World) :
  (last_migration < -1 ∨ Z.of_nat k - 1 < last_migration)%Z →
  ∀ m' w', RollbackN_loop ptrs last_migration k m w ≠ Returns (m', None) w'.
Proof.
  intros Hlast. revert m w. induction k as [|k IH]; intros m w m' w';
    rewrite RollbackN_loop_eq; cbv zeta;
    (destruct (decide _) as [Hstop|_]; [lia|]); [done|].
  destruct (index ptrs (Z.of_nat (S k) - 1)) as [p|]; [|done].
  unfold bind. destruct (apply_at m p downMigration w) as [r w1| |];
    [|done|done].
  destruct (r.2); [by unfold ret|]. apply IH. lia.
Qed.

(** X4. With some Active migration, [RollbackN(n)] for a negative [n], as
    for an [n] larger than the number of Active migrations, never returns
    without an error: the stop index of the loop is never met, so the
    loop ends in the error of a failed revert or at [migrations[-1]]. *)
Theorem RollbackN_out_of_range (m : Migrator) (n : Z) (w : World) :
  Migrations range m Active ≠ [] →
  (len (Migrations range m Active) ≤ int_max)%Z →
  (int_min ≤ n ≤ int_max)%Z →
  (n < 0 ∨ len (Migrations range m Active) < n)%Z →
  ∀ m' w', RollbackN range m n w ≠ Returns (m', None) w'.
Proof.
  intros Hsome Hfit Hint Hn m' w'. unfold RollbackN.
  destruct (decide _) as [Hlen|Hlen]; [by apply len_nil_iff in Hlen|].
  apply RollbackN_loop_never_stops.
  set (z := (len (Migrations range m Active) - 1 - n)%Z).
  assert (Hpos : (0 < len (Migrations range m Active))%Z)
    by (unfold len in *; lia).
  fold (len (Migrations range m Active)).
  destruct (decide (z ≤ int_max)%Z) as [Hsmall|Hbig].
  - rewrite wrap64_id by (unfold z, int_min, int_max in *; lia).
    unfold z. lia.
  - rewrite wrap64_overflow by (unfold z, int_min, int_max in *; lia).
    left. unfold z, int_min, int_max in *. lia.
Qed.

(** ** [Migrate], and what no bulk operation touches (X5, X6) *)

(** X5. [Migrate] applies the Inactive migrations in ascending order of
    id and stops at the first failure. When it returns no error, exactly
    the migrations that were Inactive have become Active. When it returns
    an error, the migrations before the failing one have become Active,
    and the failing one, the ones after it and every other migration are
    as before. *)
Theorem Migrate_outcome (m : Migrator) (w : World) (m' : Migrator)
    (err : option error) (w' : World) :
  Migrate range m w = Returns (m', err) w' →
  let I := Migrations range m Inactive in
  StronglySorted N.lt I
  ∧ (err = None →
     ∀ q, migrations m' !! q
          = if decide (q ∈ I) then set_Status Active <$> migrations m !! q
            else migrations m !! q)
  ∧ (is_Some err →
     ∃ pre p post,
       I = pre ++ p :: post
       ∧ (∀ q, q ∈ pre →
            migrations m' !! q = set_Status Active <$> migrations m !! q)
       ∧ (∀ q, q ∉ pre → migrations m' !! q = migrations m !! q)
       ∧ (∀ q, q ∈ p :: post → q ∉ pre)).
Proof.
  intros Hret I. unfold Migrate in Hret. fold I in Hret.
  rewrite Migrate_loop_in_order in Hret.
  assert (Hptrs : ∀ p, p ∈ I → is_Some (migrations m !! p))
    by (intros p; apply Migrations_lookup).
  split; [apply Migrations_sorted, range_perm|]. split.
  - intros ->. by apply (apply_in_order_ok upMigration I m w m' w').
  - intros [e ->].
    destruct (apply_in_order_err upMigration I m w m' e w' Hptrs Hret)
      as (pre & p & post & HI & Hlook).
    exists pre, p, post. split; [done|]. split; [|split].
    + intros q Hq. rewrite Hlook. by destruct (decide (q ∈ pre)).
    + intros q Hq. rewrite Hlook. by destruct (decide (q ∈ pre)).
    + intros q Hq Hpre. pose proof (Migrations_NoDup m Inactive) as Hnodup.
      fold I in Hnodup. rewrite HI in Hnodup.
      apply NoDup_app in Hnodup as (_ & Hdisj & _). by apply (Hdisj q).
Qed.

Lemma same_but_statuses_refl (m : Migrator) : same_but_statuses m m.
Proof.
  repeat (split; [done|]). intros key.
  by destruct (migrations m !! key).
Qed.

Lemma same_but_statuses_trans (m1 m2 m3 : Migrator) :
  same_but_statuses m1 m2 → same_but_statuses m2 m3 →
  same_but_statuses m1 m3.
Proof.
  intros (Hdb & Had & Hlg & Hsrc & Hreg) (Hdb' & Had' & Hlg' & Hsrc' & Hreg').
  split; [congruence|]. split; [congruence|]. split; [congruence|].
  split; [congruence|]. intros key.
  specialize (Hreg key). specialize (Hreg' key).
  destruct (migrations m1 !! key) as [a|], (migrations m2 !! key) as [b|],
    (migrations m3 !! key) as [c|]; try done.
  destruct Hreg as (?&?&?&?), Hreg' as (?&?&?&?).
  repeat split; congruence.
Qed.

Lemma apply_at_frame (m : Migrator) (p : N) (mType : migrationType)
    (w : World) (m1 : Migrator) (err : option error) (w1 : World) :
  apply_at m p mType w = Returns (m1, err) w1 → same_but_statuses m m1.
Proof.
  destruct (migrations m !! p) as [mig|] eqn:Hp.
  - destruct (apply_at_registry m p mType w mig Hp) as (err' & w' & ->).
    intros [= <- _ _]. repeat (split; [done|]). intros key. simpl.
    destruct err' as [e|]; [by destruct (migrations m !! key)|].
    destruct (decide (p = key)) as [<-|Hne].
    + by rewrite lookup_insert_eq, Hp.
    + rewrite lookup_insert_ne by done. by destruct (migrations m !! key).
  - unfold apply_at. by rewrite Hp.
Qed.

Lemma apply_in_order_frame (mType : migrationType) (ptrs : list N)
    (m : Migrator) (w : World) (m' : Migrator) (err : option error)
    (w' : World) :
  apply_in_order mType ptrs m w = Returns (m', err) w' →
  same_but_statuses m m'.
Proof.
  revert m w. induction ptrs as [|p rest IH]; intros m w; simpl.
  - intros [= <- _ _]. apply same_but_statuses_refl.
  - unfold bind.
    destruct (apply_at m p mType w) as [[m1 e1] w1| |] eqn:Hat; [|done|done].
    apply apply_at_frame in Hat. simpl. destruct e1 as [e|].
    + by intros [= <- _ _].
    + intros Hrest. apply IH in Hrest.
      by apply (same_but_statuses_trans m m1 m').
Qed.

Lemma RollbackN_loop_frame (ptrs : list N) (last_migration : Z) (k : nat)
    (m : Migrator) (w : World) (m' : Migrator) (err : option error)
    (w' : World) :
  RollbackN_loop ptrs last_migration k m w = Returns (m', err) w' →
  same_but_statuses m m'.
Proof.
  revert m w. induction k as [|k IH]; intros m w;
    rewrite RollbackN_loop_eq; cbv zeta;
    (destruct (decide _) as [_|_];
       [intros [= <- _ _]; apply same_but_statuses_refl|]); [done|].
  destruct (index ptrs (Z.of_nat (S k) - 1)) as [p|]; [|done].
  unfold bind.
  destruct (apply_at m p downMigration w) as [[m1 e1] w1| |] eqn:Hat;
    [|done|done].
  apply apply_at_frame in Hat. simpl. destruct e1 as [e|].
  - by intros [= <- _ _].
  - intros Hrest. apply IH in Hrest.
    by apply (same_but_statuses_trans m m1 m').
Qed.

(** X6. Whatever [Migrate], [RollbackN], [Rollback] or [RollbackAll]
    return, with or without an error, the migrator still has its database,
    adapter, logger and source, its registry has the same keys, and under
    each key the migration has its [Id], [Name], [UpPath] and [DownPath]:
    the bulk operations write the Status field and nothing else. *)
Theorem bulk_operations_frame (m : Migrator) (w : World) (m' : Migrator)
    (err : option error) (w' : World) :
  Migrate range m w = Returns (m', err) w'
  ∨ (∃ n, RollbackN range m n w = Returns (m', err) w')
  ∨ Rollback range m w = Returns (m', err) w'
  ∨ RollbackAll range m w = Returns (m', err) w' →
  same_but_statuses m m'.
Proof.
  assert (HN : ∀ n, RollbackN range m n w = Returns (m', err) w' →
                    same_but_statuses m m').
  { intros n. unfold RollbackN. destruct (decide _) as [_|_].
    - intros [= <- _ _]. apply same_but_statuses_refl.
    - apply RollbackN_loop_frame. }
  intros [Hret|[[n Hret]|[Hret|Hret]]].
  - unfold Migrate in Hret. rewrite Migrate_loop_in_order in Hret.
    by apply apply_in_order_frame in Hret.
  - by apply (HN n).
  - by apply (HN 1%Z).
  - by apply (HN (len (Migrations range m Active))).
Qed.

(** ** The database calls of one [ApplyMigration] (X7 to X12) *)

Lemma executed_app (cmds : list string) (h : list Call) :
  executed cmds h = executed cmds [] ++ h.
Proof. unfold executed. by rewrite app_nil_r. Qed.

Lemma executed_is_TxExec (cmds : list string) :
  Forall is_TxExec (executed cmds []).
Proof.
  unfold executed. rewrite app_nil_r. apply Forall_forall. intros c Hc.
  apply list_elem_of_In, in_rev, in_map_iff in Hc as (cmd & <- & _). done.
Qed.

Lemma read_source_returns (m : Migrator) (path : string) (w : World) :
  ∃ r, read_source m path w = Returns r w.
Proof. unfold read_source. destruct (Source m); by eexists. Qed.

Lemma exec_commands_trace (m : Migrator) (cmds : list string) (w : World) :
  ∃ err w', exec_commands m cmds w = Returns err w'
    ∧ match err with
      | None => calls w' = executed cmds (calls w)
      | Some _ =>
        ∃ k, (k < length cmds)%nat
             ∧ calls w' = CTxRollback :: executed (take (S k) cmds) (calls w)
      end.
Proof.
  revert w. induction cmds as [|cmd rest IH]; intros w; simpl.
  - by exists None, w.
  - unfold bind at 1. unfold TxExec, db_call; simpl.
    set (w1 := {| calls := CTxExec cmd [] :: calls w;
                  output := output w; fs := fs w |}).
    assert (Hfail : ∀ e entry,
      ∃ err w', rollback_after m e (emit entry w1) = Returns err w'
        ∧ match err with
          | None => calls w' = executed (cmd :: rest) (calls w)
          | Some _ =>
            ∃ k, (k < S (length rest))%nat
                 ∧ calls w'
                   = CTxRollback
                     :: executed (take (S k) (cmd :: rest)) (calls w)
          end).
    { intros e entry.
      destruct (rollback_after_returns m e (emit entry w1))
        as (w' & -> & Hcalls).
      eexists _, w'. split; [done|]. exists 0%nat. split; [lia|].
      by rewrite Hcalls. }
    assert (Hgo : ∀ w2, calls w2 = calls w1 →
      ∃ err w', exec_commands m rest w2 = Returns err w'
        ∧ match err with
          | None => calls w' = executed (cmd :: rest) (calls w)
          | Some _ =>
            ∃ k, (k < S (length rest))%nat
                 ∧ calls w'
                   = CTxRollback
                     :: executed (take (S k) (cmd :: rest)) (calls w)
          end).
    { intros w2 Hw2. destruct (IH w2) as (err & w' & -> & Herr).
      exists err, w'. split; [done|]. rewrite Hw2 in Herr.
      change (calls w1) with (CTxExec cmd [] :: calls w) in Herr.
      destruct err as [e|].
      - destruct Herr as (k & Hk & Hcalls). exists (S k). split; [lia|].
        change (take (S (S k)) (cmd :: rest)) with (cmd :: take (S k) rest).
        by rewrite executed_cons.
      - by rewrite executed_cons. }
    destruct (tx_Exec (DB m) (calls w) cmd []) as [e|[[rows|e]|]].
    + unfold bind, log. apply Hfail.
    + unfold bind, log. by apply Hgo.
    + unfold bind, log. apply Hfail.
    + by apply Hgo.
Qed.

Lemma ApplyMigration_trace (m : Migrator) (mig : Migration)
    (mType : migrationType) (w : World) :
  ∃ mig' err w',
    ApplyMigration m mig mType w = Returns (mig', err) w'
    ∧ (calls w' = calls w ∧ is_Some err
       ∨ calls w' = CBegin :: calls w ∧ is_Some (db_Begin (DB m) (calls w))
       ∨ db_Begin (DB m) (calls w) = None ∧ is_Some err
         ∧ (∃ body, Forall is_TxExec body
              ∧ calls w' = CTxRollback :: body ++ CBegin :: calls w)
       ∨ ∃ path sql,
           migration_path mig mType = Some path
           ∧ read_source m path w = Returns (Some (inl sql)) w
           ∧ db_Begin (DB m) (calls w) = None
           ∧ calls w'
             = CTxCommit
               :: CTxExec (log_statement m mType) [AId (Id mig)]
               :: executed (GetMigrationCommands (dbAdapter m) sql)
                    (CBegin :: calls w)
           ∧ err
             = tx_Commit (DB m)
                 (CTxExec (log_statement m mType) [AId (Id mig)]
                  :: executed (GetMigrationCommands (dbAdapter m) sql)
                       (CBegin :: calls w))).
Proof.
  unfold ApplyMigration.
  destruct (migration_path mig mType) as [path|] eqn:Hpath.
  2: { eexists _, _, _. split; [done|]. left. by split. }
  unfold bind at 1. unfold log at 1. simpl.
  unfold bind at 1.
  destruct (read_source_returns m path w) as [r Hread].
  rewrite (read_source_emit _ _ _ _ _ Hread).
  destruct r as [[sql|err]|].
  2,3: eexists _, _, _; (split; [done|]); left; by split.
  unfold bind at 1. unfold Begin at 1, db_call at 1. simpl.
  destruct (db_Begin (DB m) (calls w)) as [err|] eqn:Hbegin.
  { eexists _, _, _. split; [done|]. right. left. by split. }
  unfold bind at 1.
  match goal with |- context [exec_commands ?m ?c ?w2] =>
    destruct (exec_commands_trace m c w2) as (err & w3 & -> & Hc3) end.
  simpl in Hc3. destruct err as [err|].
  { destruct Hc3 as (k & Hk & Hc3).
    eexists _, _, _. split; [done|]. right. right. left.
    split; [done|]. split; [done|].
    eexists. split; [apply (executed_is_TxExec
      (take (S k) (GetMigrationCommands (dbAdapter m) sql)))|].
    simpl. by rewrite Hc3, executed_app. }
  unfold bind at 1. unfold TxExec at 1, db_call at 1.
  fold (log_statement m mType). rewrite Hc3.
  match goal with |- context [tx_Exec ?a ?b ?c ?d] =>
    destruct (tx_Exec a b c d) as [err|res] end.
  { unfold bind at 1. unfold log at 1. simpl. unfold bind at 1.
    match goal with |- context [rollback_after ?m ?e ?w4] =>
      destruct (rollback_after_returns m e w4) as (w5 & -> & Hc5) end.
    eexists _, _, _. split; [done|]. right. right. left.
    split; [done|]. split; [done|]. simpl in Hc5.
    exists (CTxExec (log_statement m mType) [AId (Id mig)]
            :: executed (GetMigrationCommands (dbAdapter m) sql) []).
    split; [constructor; [done|apply executed_is_TxExec]|].
    simpl. by rewrite Hc5, <- executed_app. }
  unfold bind at 1. unfold Commit at 1, db_call at 1. simpl.
  match goal with |- context [tx_Commit ?a ?b] =>
    destruct (tx_Commit a b) as [err|] eqn:Hcommit end.
  - eexists _, _, _. split; [done|]. right. right. right.
    exists path, sql. simpl. by rewrite Hcommit.
  - destruct (decide (mType = upMigration));
      eexists _, _, _; (split; [done|]); right; right; right;
      exists path, sql; simpl; by rewrite Hcommit.
Qed.

Lemma exec_commands_all_ok (m : Migrator) (cmds : list string) (w : World) :
  (∀ k cmd, cmds !! k = Some cmd →
     statement_ok (tx_Exec (DB m) (executed (take k cmds) (calls w)) cmd [])) →
  ∃ w1, calls w1 = executed cmds (calls w)
        ∧ exec_commands m cmds w = Returns None w1.
Proof.
  intros Hok.
  destruct (exec_commands_prefix m cmds [] w Hok) as (w1 & Hc1 & Heq).
  exists w1. split; [done|]. by rewrite app_nil_r in Heq.
Qed.

(** X7. The database calls of one [ApplyMigration] form at most one
    transaction, and never an open one: either there is no call at all, or
    the single call is a [Begin] that failed, or a [Begin] that succeeded
    is followed by statements executed in the transaction and then by
    exactly one [Rollback] or [Commit], the last call. *)
Theorem ApplyMigration_closes_transaction (m : Migrator) (mig : Migration)
    (mType : migrationType) (w : World) :
  ∃ mig' err w',
    ApplyMigration m mig mType w = Returns (mig', err) w'
    ∧ (calls w' = calls w
       ∨ calls w' = CBegin :: calls w ∧ is_Some (db_Begin (DB m) (calls w))
       ∨ db_Begin (DB m) (calls w) = None
         ∧ ∃ closing body,
             (closing = CTxRollback ∨ closing = CTxCommit)
             ∧ Forall is_TxExec body
             ∧ calls w' = closing :: body ++ CBegin :: calls w).
Proof.
  destruct (ApplyMigration_trace m mig mType w)
    as (mig' & err & w' & Heq & Hcases).
  exists mig', err, w'. split; [done|].
  destruct Hcases as [[Hc _]|[[Hc Hb]|[(Hb & _ & body & Hbody & Hc)|Hcommit]]].
  - by left.
  - right. left. by split.
  - right. right. split; [done|]. exists CTxRollback, body.
    split; [by left|]. by split.
  - destruct Hcommit as (path & sql & _ & _ & Hb & Hc & _).
    right. right. split; [done|].
    exists CTxCommit,
      (CTxExec (log_statement m mType) [AId (Id mig)]
       :: executed (GetMigrationCommands (dbAdapter m) sql) []).
    split; [by right|].
    split; [constructor; [done|apply executed_is_TxExec]|].
    simpl. by rewrite Hc, <- executed_app.
Qed.

(** X8. When [ApplyMigration] returns no error, it has read the script of
    the direction, and its database calls are exactly: [Begin], every
    statement the adapter split the script into, in order, the log
    statement of the direction (insert for up, delete for down) with the
    id of the migration, and a [Commit] that succeeded. *)
Theorem ApplyMigration_success_trace (m : Migrator) (mig : Migration)
    (mType : migrationType) (w : World) (mig' : Migration) (w' : World) :
  ApplyMigration m mig mType w = Returns (mig', None) w' →
  ∃ path sql,
    migration_path mig mType = Some path
    ∧ read_source m path w = Returns (Some (inl sql)) w
    ∧ calls w'
      = CTxCommit
        :: CTxExec (log_statement m mType) [AId (Id mig)]
        :: executed (GetMigrationCommands (dbAdapter m) sql)
             (CBegin :: calls w)
    ∧ tx_Commit (DB m)
        (CTxExec (log_statement m mType) [AId (Id mig)]
         :: executed (GetMigrationCommands (dbAdapter m) sql)
              (CBegin :: calls w))
      = None.
Proof.
  intros Hret.
  destruct (ApplyMigration_trace m mig mType w)
    as (mig1 & err & w1 & Heq & Hcases).
  rewrite Hret in Heq. injection Heq as <- <- <-.
  destruct Hcases as [[_ [? ?]]|[[Hc Hb]|[(_ & [? ?] & _)|Hcommit]]];
    try done.
  - destruct (ApplyMigration_cases m mig mType w)
      as (mig2 & err2 & w2 & Heq2 & Hend & _).
    rewrite Hret in Heq2. injection Heq2 as <- <- <-.
    inversion Hend as [| | |h r Hcalls Hcommit]. by rewrite Hc in Hcalls.
  - destruct Hcommit as (path & sql & Hpath & Hread & _ & Hc & Hcommit).
    by exists path, sql.
Qed.

(** X9. In [ApplyMigration], when every statement of the script succeeds
    and the statement writing the log fails, the transaction is rolled
    back right after it and the operation fails, with the error of the log
    statement if the rollback succeeds and with the error of the rollback
    otherwise; the migration is as before. *)
Theorem ApplyMigration_log_failure (m : Migrator) (mig : Migration)
    (mType : migrationType) (w : World) (path sql : string) (e : error) :
  let cmds := GetMigrationCommands (dbAdapter m) sql in
  let h := CTxExec (log_statement m mType) [AId (Id mig)]
           :: executed cmds (CBegin :: calls w) in
  migration_path mig mType = Some path →
  read_source m path w = Returns (Some (inl sql)) w →
  db_Begin (DB m) (calls w) = None →
  (∀ k c, cmds !! k = Some c →
     statement_ok
       (tx_Exec (DB m) (executed (take k cmds) (CBegin :: calls w)) c [])) →
  tx_Exec (DB m) (executed cmds (CBegin :: calls w))
    (log_statement m mType) [AId (Id mig)] = ExecFail e →
  ∃ err w',
    ApplyMigration m mig mType w = Returns (mig, Some err) w'
    ∧ calls w' = CTxRollback :: h
    ∧ (tx_Rollback (DB m) h = None → err = e)
    ∧ (∀ rollbackErr, tx_Rollback (DB m) h = Some rollbackErr →
         err = rollbackErr).
Proof.
  intros cmds h Hpath Hread Hbegin Hcmds Hfail.
  exists (default e (tx_Rollback (DB m) h)).
  unfold ApplyMigration. rewrite Hpath.
  unfold bind at 1. unfold log at 1. unfold bind at 1.
  rewrite (read_source_emit _ _ _ _ _ Hread).
  unfold bind at 1. unfold Begin at 1, db_call at 1. simpl.
  rewrite Hbegin. unfold bind at 1.
  match goal with |- context [exec_commands m _ ?w1] =>
    destruct (exec_commands_all_ok m cmds w1) as (w2 & Hc2 & Hexec);
      [exact Hcmds|] end.
  unfold cmds in Hexec. rewrite Hexec.
  simpl in Hc2. simpl.
  unfold bind at 1. unfold TxExec at 1, db_call at 1.
  fold (log_statement m mType). rewrite Hc2, Hfail.
  unfold bind at 1. unfold log at 1. simpl. unfold bind at 1.
  match goal with |- context [rollback_after ?m ?e ?w3] =>
    destruct (rollback_after_returns m e w3) as (w4 & -> & Hc4) end.
  simpl in Hc4. fold h in Hc4. simpl. fold h.
  exists w4. split; [done|]. split; [done|].
  split; [by intros ->|by intros re ->].
Qed.

(** X10. In [ApplyMigration], when a statement executes but the row count
    of its result cannot be read (those before it having succeeded), the
    transaction is rolled back right after that statement and the
    operation fails, with the error of the row count if the rollback
    succeeds and with the error of the rollback otherwise; the migration
    is as before. *)
Theorem ApplyMigration_rows_affected_failure (m : Migrator)
    (mig : Migration) (mType : migrationType) (w : World)
    (path sql : string) (pre : list string) (cmd : string)
    (post : list string) (e : error) :
  migration_path mig mType = Some path →
  read_source m path w = Returns (Some (inl sql)) w →
  db_Begin (DB m) (calls w) = None →
  GetMigrationCommands (dbAdapter m) sql = pre ++ cmd :: post →
  (∀ k c, pre !! k = Some c →
     statement_ok
       (tx_Exec (DB m) (executed (take k pre) (CBegin :: calls w)) c [])) →
  tx_Exec (DB m) (executed pre (CBegin :: calls w)) cmd []
  = ExecOk (Some (inr e)) →
  let h := CTxExec cmd [] :: executed pre (CBegin :: calls w) in
  ∃ err w',
    ApplyMigration m mig mType w = Returns (mig, Some err) w'
    ∧ calls w' = CTxRollback :: h
    ∧ (tx_Rollback (DB m) h = None → err = e)
    ∧ (∀ rollbackErr, tx_Rollback (DB m) h = Some rollbackErr →
         err = rollbackErr).
Proof.
  intros Hpath Hread Hbegin Hcmds Hpre Hfail h.
  exists (default e (tx_Rollback (DB m) h)).
  unfold ApplyMigration. rewrite Hpath.
  unfold bind at 1. unfold log at 1. unfold bind at 1.
  rewrite (read_source_emit _ _ _ _ _ Hread).
  unfold bind at 1. unfold Begin at 1, db_call at 1. simpl.
  rewrite Hbegin, Hcmds. unfold bind at 1.
  match goal with |- context [exec_commands m (pre ++ ?r) ?w1] =>
    destruct (exec_commands_prefix m pre r w1) as (w2 & Hc2 & ->);
      [exact Hpre|] end.
  simpl in Hc2. simpl. unfold bind at 1. unfold TxExec at 1, db_call at 1.
  rewrite Hc2, Hfail. unfold bind at 1. unfold log at 1. simpl.
  match goal with |- context [rollback_after ?m ?e ?w3] =>
    destruct (rollback_after_returns m e w3) as (w4 & -> & Hc4) end.
  simpl in Hc4. fold h in Hc4. simpl. fold h.
  exists w4. split; [done|]. split; [done|].
  split; [by intros ->|by intros re ->].
Qed.

(** X11. [ApplyMigration] fails before it touches the database when the
    direction is neither up nor down (the invalid-type error, and nothing
    is logged either), when the source is not one of the two pointer
    types the type switch knows (the unsupported-source error), and when
    the script cannot be read (the error of the read): no database call
    is made and the migration is as before. *)
Theorem ApplyMigration_before_transaction (m : Migrator) (mig : Migration)
    (mType : migrationType) (w : World) :
  (migration_path mig mType = None →
   ApplyMigration m mig mType w = Returns (mig, Some InvalidMigrationType) w)
  ∧ (∀ path,
       migration_path mig mType = Some path →
       read_source m path w = Returns None w →
       ∃ w', ApplyMigration m mig mType w
             = Returns (mig, Some UnsupportedSource) w'
             ∧ calls w' = calls w)
  ∧ (∀ path e,
       migration_path mig mType = Some path →
       read_source m path w = Returns (Some (inr e)) w →
       ∃ w', ApplyMigration m mig mType w = Returns (mig, Some e) w'
             ∧ calls w' = calls w).
Proof.
  split; [|split].
  - intros Hpath. unfold ApplyMigration. by rewrite Hpath.
  - intros path Hpath Hread. unfold ApplyMigration. rewrite Hpath.
    unfold bind at 1. unfold log at 1. unfold bind at 1.
    rewrite (read_source_emit _ _ _ _ _ Hread).
    unfold bind, log, ret. simpl. by eexists.
  - intros path e Hpath Hread. unfold ApplyMigration. rewrite Hpath.
    unfold bind at 1. unfold log at 1. unfold bind at 1.
    rewrite (read_source_emit _ _ _ _ _ Hread).
    unfold bind, log, ret. simpl. by eexists.
Qed.

(** X12. Round trip of one migration: when [ApplyMigration] up returns no
    error and [ApplyMigration] down on the same migration then returns no
    error, the migration is Active in between and Inactive at the end,
    its other fields untouched (so an Inactive migration is back as it
    was); the first transaction wrote the log insert and the second the
    log delete, both with the id of the migration. *)
Theorem apply_then_revert (m : Migrator) (mig : Migration) (w : World)
    (mig1 : Migration) (w1 : World) (mig2 : Migration) (w2 : World) :
  ApplyMigration m mig upMigration w = Returns (mig1, None) w1 →
  ApplyMigration m mig1 downMigration w1 = Returns (mig2, None) w2 →
  mig1 = set_Status Active mig
  ∧ mig2 = set_Status Inactive mig
  ∧ (Status mig = Inactive → mig2 = mig)
  ∧ ∃ h1 h2,
      calls w1
      = CTxCommit
        :: CTxExec (MigrationLogInsertSql (dbAdapter m)) [AId (Id mig)]
        :: h1 ++ CBegin :: calls w
      ∧ calls w2
        = CTxCommit
          :: CTxExec (MigrationLogDeleteSql (dbAdapter m)) [AId (Id mig)]
          :: h2 ++ CBegin :: calls w1.
Proof.
  intros Hup Hdown.
  destruct (ApplyMigration_cases m mig upMigration w)
    as (a & erra & wa & Heqa & _ & Ha).
  rewrite Hup in Heqa. injection Heqa as <- <- <-. destruct Ha as [Ha _].
  destruct (ApplyMigration_cases m mig1 downMigration w1)
    as (b & errb & wb & Heqb & _ & Hb).
  rewrite Hdown in Heqb. injection Heqb as <- <- <-. destruct Hb as [Hb _].
  assert (H1 : mig1 = set_Status Active mig) by done.
  assert (H2 : mig2 = set_Status Inactive mig) by (by rewrite Hb, H1).
  split; [done|]. split; [done|]. split.
  - intros Hst. rewrite H2. destruct mig. simpl in Hst. by subst.
  - destruct (ApplyMigration_trace m mig upMigration w)
      as (a & erra & wa & Heqa & Hcases).
    rewrite Hup in Heqa. injection Heqa as <- <- <-.
    destruct Hcases as [[_ [? ?]]|[[Hc Hbg]|[(_ & [? ?] & _)|Hcommit]]];
      try done.
    { destruct (ApplyMigration_cases m mig upMigration w)
        as (a & erra & wa & Heqa & Hend & _).
      rewrite Hup in Heqa. injection Heqa as <- <- <-.
      inversion Hend as [| | |h r Hcalls Hcm]. by rewrite Hc in Hcalls. }
    destruct Hcommit as (p1 & s1 & _ & _ & _ & Hc1 & _).
    destruct (ApplyMigration_trace m mig1 downMigration w1)
      as (b & errb & wb & Heqb & Hcases).
    rewrite Hdown in Heqb. injection Heqb as <- <- <-.
    destruct Hcases as [[_ [? ?]]|[[Hc Hbg]|[(_ & [? ?] & _)|Hcommit]]];
      try done.
    { destruct (ApplyMigration_cases m mig1 downMigration w1)
        as (b & errb & wb & Heqb & Hend & _).
      rewrite Hdown in Heqb. injection Heqb as <- <- <-.
      inversion Hend as [| | |h r Hcalls Hcm]. by rewrite Hc in Hcalls. }
    destruct Hcommit as (p2 & s2 & _ & _ & _ & Hc2 & _).
    exists (executed (GetMigrationCommands (dbAdapter m) s1) []),
      (executed (GetMigrationCommands (dbAdapter m) s2) []).
    rewrite Hc1 at 1. rewrite Hc2. rewrite <- !executed_app.
    by rewrite H1.
Qed.

(** ** Migrating and rolling back everything (X13) *)

Lemma RollbackN_frame (m : Migrator) (n : Z) (w : World) (m' : Migrator)
    (err : option error) (w' : World) :
  RollbackN range m n w = Returns (m', err) w' → same_but_statuses m m'.
Proof.
  unfold RollbackN. destruct (decide _) as [_|_].
  - intros [= <- _ _]. apply same_but_statuses_refl.
  - apply RollbackN_loop_frame.
Qed.

Lemma same_fields_eq (m m' : Migrator) :
  same_but_statuses m m' → migrations m' = migrations m → m' = m.
Proof.
  intros (Hdb & Had & Hlg & Hsrc & _) Hms. destruct m, m'. simpl in *.
  by subst.
Qed.

(** X13. Round trip of the whole registry: on a registry whose statuses
    are Inactive or Active, when [Migrate] returns no error and
    [RollbackAll] then returns no error, every migration is Inactive and
    otherwise as it was before the two calls; a migrator whose migrations
    were all Inactive is back exactly as it was. *)
Theorem Migrate_then_RollbackAll (m : Migrator) (w : World) (m1 : Migrator)
    (w1 : World) (m2 : Migrator) (w2 : World) :
  statuses_known (migrations m) →
  Migrate range m w = Returns (m1, None) w1 →
  (len (Migrations range m1 Active) ≤ int_max)%Z →
  RollbackAll range m1 w1 = Returns (m2, None) w2 →
  (∀ q, migrations m2 !! q = set_Status Inactive <$> migrations m !! q)
  ∧ ((∀ key mig, migrations m !! key = Some mig → Status mig = Inactive) →
     m2 = m).
Proof.
  intros Hknown Hmig Hfit Hback.
  assert (Hframe : same_but_statuses m m2).
  { apply (same_but_statuses_trans m m1 m2).
    - unfold Migrate in Hmig. rewrite Migrate_loop_in_order in Hmig.
      by apply apply_in_order_frame in Hmig.
    - by apply RollbackN_frame in Hback. }
  unfold Migrate in Hmig. rewrite Migrate_loop_in_order in Hmig.
  pose proof (apply_in_order_ok upMigration _ m w m1 w1
                (Migrations_lookup m Inactive) Hmig) as H1.
  assert (Hall : (0 ≤ len (Migrations range m1 Active)
                  ≤ len (Migrations range m1 Active))%Z)
    by (unfold len; lia).
  pose proof (RollbackN_ok_lookup m1 _ w1 m2 w2 Hall Hfit Hback) as H2.
  assert (Hlook : ∀ q, migrations m2 !! q
                       = set_Status Inactive <$> migrations m !! q).
  { intros q. rewrite H2. unfold len.
    rewrite Nat2Z.id, Nat.sub_diag, drop_0.
    destruct (migrations m !! q) as [mig|] eqn:Hq.
    - assert (Hq1 : ∃ mig1, migrations m1 !! q = Some mig1
                      ∧ Status mig1 = Active
                      ∧ set_Status Inactive mig1 = set_Status Inactive mig).
      { rewrite H1, Hq.
        destruct (decide (q ∈ Migrations range m Inactive)) as [Hin|Hout].
        - by eexists.
        - exists mig. split; [done|]. split; [|done].
          destruct (Hknown _ _ Hq) as [Hst|Hst]; [|done].
          destruct Hout. apply (elem_of_Migrations range range_perm).
          exists mig. by auto. }
      destruct Hq1 as (mig1 & Hq1 & Hst1 & Hsame).
      destruct (decide (q ∈ Migrations range m1 Active)) as [_|Hout].
      + rewrite Hq1. simpl. by rewrite Hsame.
      + destruct Hout. apply (elem_of_Migrations range range_perm).
        exists mig1. by auto.
    - assert (Hq1 : migrations m1 !! q = None).
      { rewrite H1, Hq. by destruct (decide _). }
      rewrite Hq1. by destruct (decide _). }
  split; [done|]. intros Hinactive.
  apply same_fields_eq; [done|]. apply map_eq. intros q. rewrite Hlook.
  destruct (migrations m !! q) as [mig|] eqn:Hq; [|done]. simpl.
  f_equal. specialize (Hinactive _ _ Hq). destruct mig. simpl in *.
  by subst.
Qed.

(** ** Reconciliation with the log (X14) *)

Lemma getMigrationStatuses_loop_lookup (m : Migrator)
    (entries : list (N * Migration)) (cur : registry) (w : World)
    (res : registry) (err : option error) (w' : World) :
  stable_reads (DB m) →
  NoDup entries.*1 →
  getMigrationStatuses_loop m entries cur w = Returns (res, err) w' →
  match err with
  | None =>
    ∀ q, res !! q
         = match (list_to_map entries : registry) !! q with
           | Some mig =>
             if decide (in_log m mig) then Some (set_Status Active mig)
             else cur !! q
           | None => cur !! q
           end
  | Some e =>
    e ≠ ErrNoRows
    ∧ ∃ key mig, (key, mig) ∈ entries
        ∧ db_QueryRow (DB m) [] (GetMigrationSql (dbAdapter m))
            (AId (Id mig)) = Some e
  end.
Proof.
  intros Hstable. revert cur w.
  induction entries as [|[key mig] rest IH]; intros cur w Hnodup; simpl.
  - intros [= <- <- _]. done.
  - apply NoDup_cons in Hnodup as [Hkey Hnodup].
    unfold bind at 1, QueryRow, db_call at 1. simpl.
    rewrite (Hstable (calls w) []).
    assert (Hnone : (list_to_map rest : registry) !! key = None)
      by (by apply not_elem_of_list_to_map).
    destruct (decide _) as [Hnorows|Hother].
    + intros Hloop. apply IH in Hloop; [|done]. destruct err as [e|].
      * destruct Hloop as (He & k & mg & Hin & Hans).
        split; [done|]. exists k, mg. split; [by right|done].
      * intros q. rewrite Hloop. destruct (decide (key = q)) as [<-|Hne].
        -- rewrite lookup_insert_eq, Hnone.
           destruct (decide (in_log m mig)) as [Hlog|_]; [|done].
           unfold in_log in Hlog. by rewrite Hlog in Hnorows.
        -- by rewrite lookup_insert_ne.
    + destruct (db_QueryRow (DB m) [] (GetMigrationSql (dbAdapter m))
                  (AId (Id mig))) as [e|] eqn:Hans.
      * unfold bind, log, ret. simpl. intros [= <- <- _].
        split; [congruence|]. exists key, mig. split; [by left|done].
      * intros Hloop. apply IH in Hloop; [|done]. destruct err as [e|].
        -- destruct Hloop as (He & k & mg & Hin & Hans').
           split; [done|]. exists k, mg. split; [by right|done].
        -- intros q. rewrite Hloop. destruct (decide (key = q)) as [<-|Hne].
           ++ rewrite lookup_insert_eq, Hnone.
              rewrite lookup_insert_eq.
              by destruct (decide (in_log m mig)) as [_|Hlog].
           ++ rewrite !lookup_insert_ne by done. done.
Qed.


(** X14. On a database whose lookups do not depend on the calls before
    them, [getMigrationStatuses], when it returns no error, leaves each
    migration Active if the lookup of its id finds a log entry and as it
    was otherwise; an Active migration without a log entry stays Active.
    When it returns an error, the error is the answer of the lookup of
    some migration of the registry, and it is not the no-rows error. *)
Theorem getMigrationStatuses_reconciles (m : Migrator) (w : World)
    (m' : Migrator) (err : option error) (w' : World) :
  stable_reads (DB m) →
  getMigrationStatuses range m w = Returns (m', err) w' →
  match err with
  | None => ∀ key, migrations m' !! key = reconciled m <$> migrations m !! key
  | Some e =>
    e ≠ ErrNoRows
    ∧ ∃ key mig, migrations m !! key = Some mig
        ∧ db_QueryRow (DB m) [] (GetMigrationSql (dbAdapter m))
            (AId (Id mig)) = Some e
  end.
Proof.
  intros Hstable. unfold getMigrationStatuses, bind.
  destruct (getMigrationStatuses_loop m (range (migrations m)) (migrations m) w)
    as [[res err'] w1| |] eqn:Hloop; [|done|done].
  unfold ret. simpl. intros [= <- <- _].
  apply getMigrationStatuses_loop_lookup in Hloop; [|done|].
  2: { rewrite range_perm. apply NoDup_fst_map_to_list. }
  destruct err' as [e|].
  - destruct Hloop as (He & key & mig & Hin & Hans). split; [done|].
    exists key, mig. split; [|done].
    rewrite range_perm in Hin. by apply elem_of_map_to_list in Hin.
  - intros key. simpl. rewrite Hloop.
    assert (Hmap : (list_to_map (range (migrations m)) : registry)
                   = migrations m).
    { rewrite <- (list_to_map_to_list (migrations m)) at 2.
      apply list_to_map_proper; [|apply range_perm].
      rewrite range_perm. apply NoDup_fst_map_to_list. }
    rewrite Hmap. destruct (migrations m !! key) as [mig|]; [|done].
    simpl. unfold reconciled. by destruct (decide (in_log m mig)).
Qed.

(** ** Discovery and pairing (X15 to X17) *)

Lemma range_empty : range ∅ = [].
Proof.
  apply Permutation_nil_r. rewrite range_perm. by rewrite map_to_list_empty.
Qed.

Lemma pair_loop_nothing_parses (name_of : string → string)
    (matches : list string) (ms : registry) (w : World) :
  (∀ mt, mt ∈ matches → parseMigrationPath (name_of mt) = None) →
  ∃ w', pair_loop parseMigrationPath name_of matches ms w = Returns ms w'.
Proof.
  revert w. induction matches as [|mt rest IH]; intros w Hnone; simpl.
  - by eexists.
  - rewrite (Hnone mt) by (by left). unfold bind, log. simpl.
    apply IH. intros mt' Hin. apply Hnone. by right.
Qed.

(** X15. When a source enumerates its artifacts and none of their names
    parses (in particular when it enumerates nothing), [FindMigrations]
    returns the empty registry and no error. *)
Theorem FindMigrations_nothing_parses (s : MigrationSource)
    (logger : Logger) (w : World) (matches : list string) :
  enumerates s w matches →
  (∀ mt, mt ∈ matches → parseMigrationPath (artifact_name s mt) = None) →
  ∃ w', FindMigrations parseMigrationPath range s logger w
        = Returns (∅, None) w'.
Proof.
  intros Henum Hnone.
  assert (Htail : ∀ name_of w1,
    (∀ mt, artifact_name s mt = name_of mt) →
    ∃ w', (ms0 <- pair_loop parseMigrationPath name_of matches ∅ ;;
           find_tail range ms0) w1 = Returns (∅, None) w').
  { intros name_of w1 Hname. unfold bind.
    destruct (pair_loop_nothing_parses name_of matches ∅ w1) as [w2 ->].
    { intros mt Hin. rewrite <- Hname. by apply Hnone. }
    unfold find_tail, bind. rewrite range_empty. simpl.
    unfold log, ret. simpl. by eexists. }
  destruct s as [f|a|f|a]; simpl in Henum |- *.
  1,3: destruct Henum as [Hdir Hglob];
    destruct (Dir_last_byte _ Hdir) as [last Hlast];
    unfold File_FindMigrations; rewrite Hlast;
    unfold bind at 1; unfold log at 1; unfold bind at 1; unfold Glob at 1;
    simpl; rewrite Hglob; unfold ret at 1; by apply Htail.
  1,2: unfold Asset_FindMigrations; rewrite Henum; by apply Htail.
Qed.

Lemma paired_from_mono parse (seen seen' : list string) (ms : registry) :
  (∀ mt, mt ∈ seen → mt ∈ seen') →
  paired_from parse seen ms → paired_from parse seen' ms.
Proof.
  intros Hsub Hp num mig Hmig.
  destruct (Hp num mig Hmig) as (Hid & Hst & (mt & t & Hin & Hname) & Hup & Hdown).
  split; [done|]. split; [done|]. split; [|split].
  - exists mt, t. split; [by apply Hsub|done].
  - destruct Hup as [?|[Hin' ?]]; [by left|right]. split; [by apply Hsub|done].
  - destruct Hdown as [?|[Hin' ?]]; [by left|right].
    split; [by apply Hsub|done].
Qed.

Lemma pair_loop_paired (name_of : string → string) (matches : list string)
    (seen : list string) (ms : registry) (w : World) (ms' : registry)
    (w' : World) :
  let parse := λ mt, parseMigrationPath (name_of mt) in
  paired_from parse seen ms →
  keys_from parse seen ms →
  pair_loop parseMigrationPath name_of matches ms w = Returns ms' w' →
  paired_from parse (seen ++ matches) ms'
  ∧ keys_from parse (seen ++ matches) ms'.
Proof.
  intros parse. revert seen ms w. induction matches as [|mt rest IH];
    intros seen ms w Hp Hk; simpl.
  - intros [= <- _]. by rewrite app_nil_r.
  - assert (Hsub : ∀ x, x ∈ seen → x ∈ seen ++ [mt])
      by (intros x Hx; apply elem_of_app; by left).
    assert (Hmt : mt ∈ seen ++ [mt])
      by (apply elem_of_app; right; by left).
    rewrite (cons_middle mt seen rest), app_assoc.
    assert (Hdef : parse mt = parseMigrationPath (name_of mt)) by done.
    destruct (parseMigrationPath (name_of mt)) as [[[num mtype] name]|]
      eqn:Hparse; unfold bind, log; simpl; apply IH.
    + (* the artifact parses: the registry after it *)
      intros key mig. destruct (decide (num = key)) as [<-|Hne].
      * rewrite lookup_insert_eq. intros [= <-].
        assert (Hbase : ∃ base,
          match ms !! num with
          | Some migration => migration
          | None => {| DownPath := ""; Id := num; Name := name;
                       Status := Inactive; UpPath := "" |}
          end = base
          ∧ paired_from parse (seen ++ [mt]) {[num := base]}).
        { eexists. split; [done|]. intros k mg Hk'.
          apply lookup_singleton_Some in Hk' as [<- <-].
          destruct (ms !! num) as [old|] eqn:Hold.
          - by apply (paired_from_mono _ seen _ ms Hsub Hp).
          - simpl. split; [done|]. split; [done|]. split; [|split].
            + by exists mt, mtype.
            + by left.
            + by left. }
        destruct Hbase as (base & -> & Hbase).
        destruct (Hbase num base) as (Hid & Hst & Hname & Hup & Hdown);
          [by rewrite lookup_singleton_eq|].
        destruct (decide (mtype = upMigration)) as [->|Hdir]; simpl.
        -- split; [done|]. split; [done|]. split; [done|]. split; [|done].
           right. split; [done|]. by exists name.
        -- split; [done|]. split; [done|]. split; [done|]. split; [done|].
           right. split; [done|]. by exists mtype, name.
      * rewrite lookup_insert_ne by done. intros Hmig.
        by apply (paired_from_mono _ seen _ ms Hsub Hp).
    + intros key. destruct (decide (num = key)) as [<-|Hne].
      * rewrite lookup_insert_eq. split; [|by eexists].
        intros _. by exists mt, mtype, name.
      * rewrite lookup_insert_ne by done. rewrite (Hk key). split.
        -- intros (x & t & nm & Hx & Hpx). exists x, t, nm. by auto.
        -- intros (x & t & nm & Hx & Hpx).
           apply elem_of_app in Hx as [Hx|Hx]; [by exists x, t, nm|].
           apply list_elem_of_singleton in Hx as ->. congruence.
    + by apply (paired_from_mono _ seen _ ms Hsub Hp).
    + intros key. rewrite (Hk key). split.
      * intros (x & t & nm & Hx & Hpx). exists x, t, nm. by auto.
      * intros (x & t & nm & Hx & Hpx).
        apply elem_of_app in Hx as [Hx|Hx]; [by exists x, t, nm|].
        apply list_elem_of_singleton in Hx as ->. congruence.
Qed.

(** X16. The registry that [FindMigrations] returns, with or without the
    pairing error, holds exactly what the enumerated artifacts give: its
    keys are the ids of the artifacts whose names parse, and the migration
    under an id is stored with that id, Inactive, with the name of an
    artifact of the id, with an up location that is empty or an
    enumerated artifact of the id and of the direction up, and with a
    down location that is empty or an enumerated artifact of the id and
    of a direction other than up. *)
Theorem FindMigrations_pairs_artifacts (s : MigrationSource)
    (logger : Logger) (w : World) (matches : list string) (ms : registry)
    (err : option error) (w' : World) :
  enumerates s w matches →
  FindMigrations parseMigrationPath range s logger w = Returns (ms, err) w' →
  paired_from (λ mt, parseMigrationPath (artifact_name s mt)) matches ms
  ∧ keys_from (λ mt, parseMigrationPath (artifact_name s mt)) matches ms.
Proof.
  intros Henum.
  assert (Htail : ∀ name_of w1,
    (ms0 <- pair_loop parseMigrationPath name_of matches ∅ ;;
     find_tail range ms0) w1 = Returns (ms, err) w' →
    paired_from (λ mt, parseMigrationPath (name_of mt)) matches ms
    ∧ keys_from (λ mt, parseMigrationPath (name_of mt)) matches ms).
  { intros name_of w1. unfold bind.
    destruct (pair_loop parseMigrationPath name_of matches ∅ w1)
      as [ms1 w2| |] eqn:Hpair; [|done|done].
    destruct (find_tail_spec range range_perm ms1 w2)
      as (err' & w3 & -> & _).
    intros [= <- _ _].
    apply (pair_loop_paired name_of matches [] ∅ w1 ms1 w2); [| |done].
    - intros num mig. by rewrite lookup_empty.
    - intros num. rewrite lookup_empty. split; [by intros [? ?]|].
      intros (mt & t & nm & Hin & _). by apply elem_of_nil in Hin. }
  destruct s as [f|a|f|a]; simpl in Henum |- *.
  1,3: destruct Henum as [Hdir Hglob];
    destruct (Dir_last_byte _ Hdir) as [last Hlast];
    unfold File_FindMigrations; rewrite Hlast;
    unfold bind at 1; unfold log at 1; unfold bind at 1; unfold Glob at 1;
    simpl; rewrite Hglob; unfold ret at 1; by apply Htail.
  1,2: unfold Asset_FindMigrations; rewrite Henum; by apply Htail.
Qed.

(** X17. When [filepath.Glob] fails for a non-empty [Dir],
    [FileMigrationSource.FindMigrations] hands the error to [Fatalf] of
    the logger; the process exits there, or, with a logger whose [Fatalf]
    returns, discovery goes on with no artifact and returns the empty
    registry and no error. *)
Theorem File_FindMigrations_glob_error (f : FileMigrationSource)
    (logger : Logger) (w : World) (e : error) :
  file_Dir f ≠ "" →
  fs_Glob (fs w) (file_Dir f +:+ "*") = inr e →
  ∃ w',
    mkLogEntry Fatalf "Error while globbing migrations: %v" [LErr e]
    ∈ output w'
    ∧ calls w' = calls w
    ∧ File_FindMigrations parseMigrationPath range f logger w
      = if fatalf_returns logger then Returns (∅, None) w' else Exits w'.
Proof.
  intros Hdir Hglob. destruct (Dir_last_byte _ Hdir) as [last Hlast].
  unfold File_FindMigrations. rewrite Hlast.
  unfold bind at 1. unfold log at 1. unfold bind at 1. unfold Glob at 1.
  simpl. rewrite Hglob. unfold bind at 1, fatalf at 1. simpl.
  destruct (fatalf_returns logger).
  - unfold ret at 1. unfold bind at 1. simpl.
    unfold bind at 1, ret at 1, find_tail, bind. rewrite range_empty. simpl.
    unfold log, ret. simpl. eexists. split; [|split; [|done]]; simpl.
    + right. by left.
    + done.
  - eexists. split; [|split; [|done]]; simpl; [by left|done].
Qed.

(** ** Construction (X18 to X23) *)




(** X19. When the probe for the log table fails with an error other than
    the no-rows error, [NewMigratorWithLogger] returns no migrator and
    that error, after this one database call: the table is not created
    and no migration is looked up. *)
Theorem NewMigratorWithLogger_probe_error (db : Driver)
    (adapter : Migratable) (s : MigrationSource) (lg : Logger) (w : World)
    (e : error) :
  let probe :=
    CQueryRow (SelectMigrationTableSql adapter) (AStr migrationTableName) in
  db_QueryRow db (calls w) (SelectMigrationTableSql adapter)
    (AStr migrationTableName) = Some e →
  e ≠ ErrNoRows →
  ∃ w',
    NewMigratorWithLogger parseMigrationPath range db adapter s lg w
    = Returns (None, Some e) w'
    ∧ calls w' = probe :: calls w.
Proof.
  intros probe Hprobe Hne.
  unfold NewMigratorWithLogger, bind at 1.
  unfold MigrationTableExists, bind at 1, QueryRow, db_call at 1. simpl.
  rewrite Hprobe. destruct (decide _) as [Heq|_]; [congruence|].
  unfold bind, log, ret. simpl. by eexists.
Qed.

(** X20. [CreateMigrationsTable] makes one database call, the statement
    creating the log table, and has no path on which it returns an error.
    When the statement succeeds it returns nil. When it fails, the
    failure goes to [Fatalf] of the logger: the process exits, or, with a
    logger whose [Fatalf] returns, the method logs that the table was
    created and returns nil all the same. *)
Theorem CreateMigrationsTable_outcomes (m : Migrator) (w : World) :
  let create := CreateMigrationTableSql (dbAdapter m) in
  ∃ w',
    calls w' = CExec create :: calls w
    ∧ CreateMigrationsTable m w
      = match db_Exec (DB m) (calls w) create with
        | Some e =>
          if fatalf_returns (logger m) then Returns None w' else Exits w'
        | None => Returns None w'
        end
    ∧ (∀ e, db_Exec (DB m) (calls w) create = Some e →
         mkLogEntry Fatalf "Error creating migrations table: %v" [LErr e]
         ∈ output w'
         ∧ (fatalf_returns (logger m) = true →
            head (output w')
            = Some (mkLogEntry Printf "Created migrations table: %s"
                      [LStr migrationTableName]))).
Proof.
  intros create.
  unfold CreateMigrationsTable, bind, Exec, db_call; simpl. fold create.
  destruct (db_Exec (DB m) (calls w) create) as [e|];
    unfold fatalf, log, ret; simpl.
  - destruct (fatalf_returns (logger m)); eexists;
      (split; [|split; [done|]]); simpl; try done.
    + intros e' [= <-]. split; [right; by left|done].
    + intros e' [= <-]. split; [by left|done].
  - eexists. split; [|split; [done|]]; simpl; done.
Qed.

Lemma pair_loop_world (name_of : string → string) (matches : list string)
    (ms : registry) (w : World) :
  ∃ ms' w', pair_loop parseMigrationPath name_of matches ms w = Returns ms' w'
    ∧ calls w' = calls w ∧ fs w' = fs w
    ∧ ∀ w2, ∃ w2',
        pair_loop parseMigrationPath name_of matches ms w2 = Returns ms' w2'.
Proof.
  revert ms w. induction matches as [|mt rest IH]; intros ms w; simpl.
  - exists ms, w. repeat (split; [done|]). intros w2. by exists w2.
  - destruct (parseMigrationPath (name_of mt)) as [[[num mtype] name]|];
      unfold bind, log; simpl.
    + match goal with |- context [pair_loop _ _ _ ?ms1 ?w1] =>
        destruct (IH ms1 w1) as (ms' & w' & -> & Hc & Hf & Hw) end.
      exists ms', w'. repeat (split; [done|]). intros w2. apply Hw.
    + match goal with |- context [pair_loop _ _ _ ?ms1 ?w1] =>
        destruct (IH ms1 w1) as (ms' & w' & -> & Hc & Hf & Hw) end.
      exists ms', w'. repeat (split; [done|]). intros w2. apply Hw.
Qed.

Lemma find_tail_calls (ms : registry) (w : World) :
  ∃ err w', find_tail range ms w = Returns (ms, err) w'
            ∧ calls w' = calls w.
Proof.
  unfold find_tail, bind.
  assert (Hval : ∀ entries,
    ∃ err w', validate_loop entries w = Returns err w'
              ∧ calls w' = calls w).
  { induction entries as [|[key mig] rest IH]; simpl; [by eexists _, _|].
    destruct (valid mig); simpl; [done|].
    unfold bind, log, ret. simpl. by eexists _, _. }
  destruct (Hval (range ms)) as (err & w1 & -> & Hc).
  destruct err as [e|]; unfold log, ret; simpl; by eexists _, _.
Qed.

Lemma FindMigrations_calls (s : MigrationSource) (lg : Logger) (w : World) :
  calls (world_of (FindMigrations parseMigrationPath range s lg w))
  = calls w.
Proof.
  assert (Htail : ∀ name_of matches w1,
    calls (world_of
             ((ms0 <- pair_loop parseMigrationPath name_of matches ∅ ;;
               find_tail range ms0) w1)) = calls w1).
  { intros name_of matches w1. unfold bind.
    destruct (pair_loop_world name_of matches ∅ w1)
      as (ms & w2 & -> & Hc2 & _).
    destruct (find_tail_calls ms w2) as (err & w3 & -> & Hc3).
    simpl. by rewrite Hc3. }
  destruct s as [f|a|f|a]; simpl.
  1,3: unfold File_FindMigrations;
    destruct (index _ _) as [last|]; [|done];
    unfold bind at 1, log at 1, bind at 1, Glob at 1; simpl;
    destruct (fs_Glob _ _) as [matches|e];
      [unfold ret at 1; exact (Htail Base matches _)|];
    unfold bind at 1, fatalf at 1; simpl;
    destruct (fatalf_returns lg);
      [unfold ret at 1; exact (Htail Base [] _)|done].
  1,2: unfold Asset_FindMigrations;
    destruct (AssetDir a (asset_Dir a)) as [files|e];
      [exact (Htail (λ mt, mt) files _)|done].
Qed.

Lemma getMigrationStatuses_loop_calls (m : Migrator)
    (entries : list (N * Migration)) (cur : registry) (w : World) :
  ∃ res err w' lookups,
    getMigrationStatuses_loop m entries cur w = Returns (res, err) w'
    ∧ Forall is_QueryRow lookups
    ∧ calls w' = lookups ++ calls w.
Proof.
  revert cur w. induction entries as [|[key mig] rest IH]; intros cur w;
    simpl.
  - exists cur, None, w, []. by repeat split.
  - unfold bind at 1, QueryRow, db_call at 1. simpl.
    set (q := CQueryRow (GetMigrationSql (dbAdapter m)) (AId (Id mig))).
    assert (Hgo : ∀ cur1 w1, calls w1 = q :: calls w →
      ∃ res err w' lookups,
        getMigrationStatuses_loop m rest cur1 w1 = Returns (res, err) w'
        ∧ Forall is_QueryRow lookups
        ∧ calls w' = lookups ++ calls w).
    { intros cur1 w1 Hw1.
      destruct (IH cur1 w1) as (res & err & w' & lookups & -> & Hall & Hc).
      exists res, err, w', (lookups ++ [q]). split; [done|]. split.
      - apply Forall_app. split; [done|]. by constructor.
      - rewrite Hc, Hw1. by rewrite <- app_assoc. }
    destruct (decide _) as [_|_]; [by apply Hgo|].
    destruct (db_QueryRow _ _ _ _) as [e|]; [|by apply Hgo].
    unfold bind, log, ret. simpl. eexists _, _, _, [q].
    split; [done|]. split; [by constructor|done].
Qed.

(** X21. Whatever happens, [NewMigratorWithLogger] opens no transaction
    and executes at most one statement: its database calls are the probe
    for the log table, then the statement creating the table, that one
    only when the probe reported no rows, then lookups and nothing
    else. *)
Theorem NewMigratorWithLogger_database_calls (db : Driver)
    (adapter : Migratable) (s : MigrationSource) (lg : Logger) (w : World) :
  let probe :=
    CQueryRow (SelectMigrationTableSql adapter) (AStr migrationTableName) in
  let create := CExec (CreateMigrationTableSql adapter) in
  let w' :=
    world_of
      (NewMigratorWithLogger parseMigrationPath range db adapter s lg w) in
  ∃ lookups,
    Forall is_QueryRow lookups
    ∧ (calls w' = lookups ++ probe :: calls w
       ∨ db_QueryRow db (calls w) (SelectMigrationTableSql adapter)
           (AStr migrationTableName) = Some ErrNoRows
         ∧ calls w' = lookups ++ create :: probe :: calls w).
Proof.
  intros probe create w'. subst w'.
  set (m0 := mkMigrator db adapter ∅ lg s).
  assert (Hrest : ∀ w1,
    ∃ lookups, Forall is_QueryRow lookups
      ∧ calls (world_of
                 ((r <- FindMigrations parseMigrationPath range
                          (Source m0) lg ;;
                   let migrator := with_migrations r.1 m0 in
                   match r.2 with
                   | Some err => ret (None, Some err)
                   | None =>
                     r <- getMigrationStatuses range migrator ;;
                     match r.2 with
                     | Some err => ret (None, Some err)
                     | None => ret (Some r.1, None)
                     end
                   end) w1))
        = lookups ++ calls w1).
  { intros w1. unfold bind at 1.
    pose proof (FindMigrations_calls (Source m0) lg w1) as Hfind.
    destruct (FindMigrations _ _ _ _ _) as [[ms err3] w3| |];
      simpl in Hfind |- *; [|by exists []|by exists []].
    destruct err3 as [e|]; [by exists []|].
    unfold bind at 1. unfold getMigrationStatuses at 1. unfold bind at 1.
    match goal with |- context [getMigrationStatuses_loop ?m ?en ?c ?w2] =>
      destruct (getMigrationStatuses_loop_calls m en c w2)
        as (res & err4 & w4 & lookups & -> & Hall & Hc4) end.
    unfold ret at 1. simpl. exists lookups. split; [done|].
    destruct err4 as [e|]; simpl; by rewrite Hc4, Hfind. }
  assert (Hmain : ∃ lookups mid,
    Forall is_QueryRow lookups
    ∧ (mid = []
       ∨ db_QueryRow db (calls w) (SelectMigrationTableSql adapter)
           (AStr migrationTableName) = Some ErrNoRows
         ∧ mid = [create])
    ∧ calls (world_of (NewMigratorWithLogger parseMigrationPath range db
                         adapter s lg w))
      = lookups ++ mid ++ probe :: calls w).
  { unfold NewMigratorWithLogger. unfold bind at 1.
    unfold MigrationTableExists, bind at 1, QueryRow, db_call at 1. simpl.
    fold probe.
    destruct (db_QueryRow db (calls w) (SelectMigrationTableSql adapter)
                (AStr migrationTableName)) as [e|] eqn:Hprobe.
    - destruct (decide (Some e = Some ErrNoRows)) as [Heq|Hne].
      + unfold bind at 1, log at 1, ret at 1. simpl.
        unfold bind at 1, CreateMigrationsTable, bind at 1, Exec,
          db_call at 1.
        simpl. fold create.
        destruct (db_Exec _ _ _) as [e'|].
        * unfold bind at 1, fatalf at 1. simpl.
          destruct (fatalf_returns lg).
          2: { exists [], [create]. split; [done|]. split; [by right|done]. }
          unfold bind at 1, log at 1, ret at 1. simpl.
          match goal with
          | |- context [world_of (_ ?w1)] =>
            destruct (Hrest w1) as (lookups & Hall & Hc) end.
          exists lookups, [create]. split; [done|]. split; [by right|].
          exact Hc.
        * unfold bind at 1, ret at 1. unfold bind at 1, log at 1, ret at 1.
          simpl.
          match goal with
          | |- context [world_of (_ ?w1)] =>
            destruct (Hrest w1) as (lookups & Hall & Hc) end.
          exists lookups, [create]. split; [done|]. split; [by right|].
          exact Hc.
      + unfold bind, log, ret. simpl. exists [], [].
        split; [done|]. split; [by left|done].
    - destruct (decide (None = Some ErrNoRows)) as [?|_]; [done|].
      unfold bind at 1, log at 1, ret at 1. simpl.
      unfold bind at 1, ret at 1.
      match goal with
      | |- context [world_of (_ ?w1)] =>
        destruct (Hrest w1) as (lookups & Hall & Hc) end.
      exists lookups, []. split; [done|]. split; [by left|].
      exact Hc. }
  destruct Hmain as (lookups & mid & Hall & [->|[Hnorows ->]] & Hc);
    exists lookups; (split; [done|]); [by left|by right].
Qed.

Lemma FindMigrations_invalid (s : MigrationSource) (lg : Logger)
    (w w0 : World) (matches : list string) (ms : registry) (wp : World)
    (key : N) (mig : Migration) :
  enumerates s w matches →
  pair_loop parseMigrationPath (artifact_name s) matches ∅ w0
  = Returns ms wp →
  ms !! key = Some mig → valid mig = false →
  ∃ w', FindMigrations parseMigrationPath range s lg w
        = Returns (ms, Some InvalidMigrationPair) w'
        ∧ calls w' = calls w.
Proof.
  intros Henum Hpair Hkey Hinvalid.
  assert (Hfind : ∃ w', FindMigrations parseMigrationPath range s lg w
                        = Returns (ms, Some InvalidMigrationPair) w').
  { assert (Htail : ∀ w1,
      ∃ w', (ms0 <- pair_loop parseMigrationPath (artifact_name s) matches ∅ ;;
             find_tail range ms0) w1
            = Returns (ms, Some InvalidMigrationPair) w').
    { intros w1. unfold bind.
      destruct (pair_loop_world (artifact_name s) matches ∅ w0)
        as (ms' & wp' & Heq & _ & _ & Hany).
      rewrite Hpair in Heq. injection Heq as <- <-.
      destruct (Hany w1) as [w2 ->].
      destruct (find_tail_spec range range_perm ms w2)
        as (err & w3 & -> & [[-> Hall]|[-> _]]); [|by eexists].
      rewrite (Hall key mig Hkey) in Hinvalid. done. }
    destruct s as [f|a|f|a]; simpl in Henum |- *.
    1,3: destruct Henum as [Hdir Hglob];
      destruct (Dir_last_byte _ Hdir) as [last Hlast];
      unfold File_FindMigrations; rewrite Hlast;
      unfold bind at 1; unfold log at 1; unfold bind at 1; unfold Glob at 1;
      simpl; rewrite Hglob; unfold ret at 1; apply Htail.
    1,2: unfold Asset_FindMigrations; rewrite Henum; apply Htail. }
  destruct Hfind as [w' Hfind]. exists w'. split; [done|].
  pose proof (FindMigrations_calls s lg w) as Hcalls.
  by rewrite Hfind in Hcalls.
Qed.

(** X22. When the log table is found and discovery pairs the enumerated
    artifacts into a registry with an invalid migration (an up file
    without its down file, say), [NewMigratorWithLogger] returns no
    migrator and the invalid-pair error, its only database call being the
    probe: no migration is looked up in the log. *)
Theorem NewMigratorWithLogger_invalid_pair (db : Driver)
    (adapter : Migratable) (s : MigrationSource) (lg : Logger) (w : World)
    (matches : list string) (ms : registry) (wp : World) (key : N)
    (mig : Migration) :
  let probe :=
    CQueryRow (SelectMigrationTableSql adapter) (AStr migrationTableName) in
  db_QueryRow db (calls w) (SelectMigrationTableSql adapter)
    (AStr migrationTableName) = None →
  enumerates s w matches →
  pair_loop parseMigrationPath (artifact_name s) matches ∅ w
  = Returns ms wp →
  ms !! key = Some mig →
  valid mig = false →
  ∃ w',
    NewMigratorWithLogger parseMigrationPath range db adapter s lg w
    = Returns (None, Some InvalidMigrationPair) w'
    ∧ calls w' = probe :: calls w.
Proof.
  intros probe Hprobe Henum Hpair Hkey Hinvalid.
  unfold NewMigratorWithLogger, bind at 1.
  unfold MigrationTableExists, bind at 1, QueryRow, db_call at 1. simpl.
  rewrite Hprobe. destruct (decide _) as [?|_]; [done|].
  unfold bind at 1, log at 1, ret at 1. simpl. unfold bind at 1, ret at 1.
  unfold bind at 1.
  match goal with |- context [FindMigrations _ _ _ _ ?w1] =>
    assert (Henum1 : enumerates s w1 matches) by (destruct s; exact Henum);
    destruct (FindMigrations_invalid s lg w1 w matches ms wp key mig
                Henum1 Hpair Hkey Hinvalid) as (w3 & -> & Hc3) end.
  simpl. unfold ret. exists w3. split; [done|]. by rewrite Hc3.
Qed.



(** ** Two more paths (X24, X25) *)

(** X24. In [ApplyMigration], when the script is read and [Begin] fails,
    the operation fails with the error of [Begin]; that [Begin] is its
    only database call, and the migration is as before. *)
Theorem ApplyMigration_begin_failure (m : Migrator) (mig : Migration)
    (mType : migrationType) (w : World) (path sql : string) (e : error) :
  migration_path mig mType = Some path →
  read_source m path w = Returns (Some (inl sql)) w →
  db_Begin (DB m) (calls w) = Some e →
  ∃ w', ApplyMigration m mig mType w = Returns (mig, Some e) w'
        ∧ calls w' = CBegin :: calls w.
Proof.
  intros Hpath Hread Hbegin. unfold ApplyMigration. rewrite Hpath.
  unfold bind at 1. unfold log at 1. unfold bind at 1.
  rewrite (read_source_emit _ _ _ _ _ Hread).
  unfold bind at 1. unfold Begin at 1, db_call at 1. simpl.
  rewrite Hbegin. unfold bind, log, ret. simpl. by eexists.
Qed.

Lemma pair_loop_covered (name_of : string → string) (matches : list string)
    (seen : list string) (ms : registry) (w : World) (ms' : registry)
    (w' : World) :
  let parse := λ mt, parseMigrationPath (name_of mt) in
  (∀ mt, mt ∈ matches → mt ≠ "") →
  covered_by parse seen ms →
  pair_loop parseMigrationPath name_of matches ms w = Returns ms' w' →
  covered_by parse (seen ++ matches) ms'.
Proof.
  intros parse. revert seen ms w.
  induction matches as [|mt rest IH]; intros seen ms w Hne Hcov; simpl.
  - intros [= <- _]. by rewrite app_nil_r.
  - rewrite (cons_middle mt seen rest), app_assoc.
    assert (Hrest : ∀ x, x ∈ rest → x ≠ "")
      by (intros x Hx; apply Hne; by right).
    assert (Hmt : mt ≠ "") by (apply Hne; by left).
    assert (Hdef : parse mt = parseMigrationPath (name_of mt)) by done.
    destruct (parseMigrationPath (name_of mt)) as [[[num mtype] name]|]
      eqn:Hparse; unfold bind, log; simpl; apply IH; try done.
    + intros x k t nm Hx Hpx.
      set (base := match ms !! num with
                   | Some migration => migration
                   | None => {| DownPath := ""; Id := num; Name := name;
                                Status := Inactive; UpPath := "" |}
                   end).
      destruct (decide (num = k)) as [<-|Hk].
      * rewrite lookup_insert_eq. eexists. split; [done|].
        apply elem_of_app in Hx as [Hx|Hx].
        -- destruct (Hcov x num t nm Hx Hpx) as (old & Hold & Hup & Hdown).
           unfold base. rewrite Hold.
           destruct (decide (mtype = upMigration)); simpl; by split.
        -- apply list_elem_of_singleton in Hx as ->.
           rewrite Hdef in Hpx. injection Hpx as <- <-.
           destruct (decide (mtype = upMigration)); simpl; by split.
      * rewrite lookup_insert_ne by done.
        apply elem_of_app in Hx as [Hx|Hx]; [by apply (Hcov x k t nm)|].
        apply list_elem_of_singleton in Hx as ->.
        rewrite Hdef in Hpx. by injection Hpx as <- <-.
    + intros x k t nm Hx Hpx.
      apply elem_of_app in Hx as [Hx|Hx]; [by apply (Hcov x k t nm)|].
      apply list_elem_of_singleton in Hx as ->. congruence.
Qed.

(** X25. When the artifacts a source enumerates come in complete pairs
    (none is the empty string, each one that parses has an id other than
    0 and a non-empty name, and for each id there are an artifact of the
    direction up and one of another direction), [FindMigrations] returns
    no error, and every migration of the registry it returns is valid. *)
Theorem FindMigrations_accepts_complete_pairs (s : MigrationSource)
    (logger : Logger) (w : World) (matches : list string) :
  enumerates s w matches →
  complete_pairs (λ mt, parseMigrationPath (artifact_name s mt)) matches →
  ∃ ms w',
    FindMigrations parseMigrationPath range s logger w
    = Returns (ms, None) w'
    ∧ ∀ key mig, ms !! key = Some mig → valid mig = true.
Proof.
  intros Henum [Hne Hpairs].
  assert (Htail : ∀ name_of w1,
    (∀ mt, artifact_name s mt = name_of mt) →
    ∃ ms w', (ms0 <- pair_loop parseMigrationPath name_of matches ∅ ;;
              find_tail range ms0) w1 = Returns (ms, None) w'
             ∧ ∀ key mig, ms !! key = Some mig → valid mig = true).
  { intros name_of w1 Hname. unfold bind.
    destruct (pair_loop_world name_of matches ∅ w1)
      as (ms & w2 & Hpair & _). rewrite Hpair.
    assert (Hvalid : ∀ key mig, ms !! key = Some mig → valid mig = true).
    { destruct (pair_loop_paired name_of matches [] ∅ w1 ms w2)
        as [Hp Hk]; [| |done|].
      { intros num mig. by rewrite lookup_empty. }
      { intros num. rewrite lookup_empty. split; [by intros [? ?]|].
        intros (mt & t & nm & Hin & _). by apply elem_of_nil in Hin. }
      pose proof (pair_loop_covered name_of matches [] ∅ w1 ms w2 Hne) as Hc.
      cbv zeta in Hc. simpl in Hc, Hp, Hk.
      assert (Hcov : covered_by (λ mt, parseMigrationPath (name_of mt))
                       matches ms).
      { apply Hc; [|done]. intros mt num t nm Hin. by apply elem_of_nil in Hin. }
      intros key mig Hmig. apply valid_true_iff.
      destruct (Hp key mig Hmig) as (Hid & _ & (mt & t & Hin & Hnm) & _ & _).
      rewrite <- Hname in Hnm.
      destruct (Hpairs mt key t (Name mig) Hin Hnm)
        as (Hkey & Hname' & (up & nu & Hup & Hpu)
            & (down & td & nd & Hdown & Htd & Hpd)).
      rewrite Hname in Hpu, Hpd.
      destruct (Hcov up key upMigration nu Hup Hpu) as (mu & Hmu & Hu & _).
      destruct (Hcov down key td nd Hdown Hpd) as (md & Hmd & _ & Hd).
      rewrite Hmig in Hmu, Hmd. injection Hmu as <-. injection Hmd as <-.
      rewrite Hid. repeat split; auto. }
    destruct (find_tail_spec range range_perm ms w2)
      as (err & w3 & -> & [[-> _]|[-> (key & mig & Hkey & Hinvalid)]]).
    - by exists ms, w3.
    - rewrite (Hvalid key mig Hkey) in Hinvalid. done. }
  destruct s as [f|a|f|a]; simpl in Henum |- *.
  1,3: destruct Henum as [Hdir Hglob];
    destruct (Dir_last_byte _ Hdir) as [last Hlast];
    unfold File_FindMigrations; rewrite Hlast;
    unfold bind at 1; unfold log at 1; unfold bind at 1; unfold Glob at 1;
    simpl; rewrite Hglob; unfold ret at 1; by apply Htail.
  1,2: unfold Asset_FindMigrations; rewrite Henum; by apply Htail.
Qed.

End Further.

(** * The further properties on concrete inputs *)

Lemma RollbackN_reverts_last_n_witness :
  RollbackN range_list (demo_migrator db_ok (demo_registry Active Active))
    1 w0
  = apply_in_order downMigration [2%N]
      (demo_migrator db_ok (demo_registry Active Active)) w0.
Proof.
  pose proof (RollbackN_reverts_last_n range_list range_list_perm
                (demo_migrator db_ok (demo_registry Active Active)) 1 w0)
    as H.
  cbv zeta in H. destruct H as (_ & Heq & _).
  - vm_compute. split; discriminate.
  - vm_compute. discriminate.
  - exact Heq.
Defined.

Lemma Rollback_reverts_highest_witness :
  ∃ mig,
    migrations (demo_migrator db_ok (demo_registry Active Active)) !! 2%N
    = Some mig
    ∧ Status mig = Active
    ∧ demo_registry Active Inactive
      = <[2%N := set_Status Inactive mig]> (demo_registry Active Active).
Proof.
  set (m := demo_migrator db_ok (demo_registry Active Active)).
  set (m' := demo_migrator db_ok (demo_registry Active Inactive)).
  set (w' := world_of (Rollback range_list m w0)).
  assert (Hret : Rollback range_list m w0 = Returns (m', None) w')
    by (vm_compute; reflexivity).
  destruct (Rollback_reverts_highest range_list range_list_perm m w0 m' w'
              2%N) as [_ H].
  - reflexivity.
  - vm_compute. discriminate.
  - exact Hret.
  - exact H.
Defined.

Lemma RollbackAll_reverts_all_witness :
  Migrations range_list
    (demo_migrator db_ok (demo_registry Inactive Inactive)) Active = [].
Proof.
  set (m := demo_migrator db_ok (demo_registry Active Active)).
  set (m' := demo_migrator db_ok (demo_registry Inactive Inactive)).
  set (w' := world_of (RollbackAll range_list m w0)).
  assert (Hret : RollbackAll range_list m w0 = Returns (m', None) w')
    by (vm_compute; reflexivity).
  destruct (RollbackAll_reverts_all range_list range_list_perm m w0 m' w')
    as [_ H].
  - vm_compute. discriminate.
  - exact Hret.
  - exact H.
Defined.

Lemma RollbackN_out_of_range_witness :
  RollbackN range_list (demo_migrator db_ok (demo_registry Active Active))
    (-1) w0
  ≠ Returns (demo_migrator db_ok (demo_registry Active Active), None) w0.
Proof.
  apply (RollbackN_out_of_range range_list
           (demo_migrator db_ok (demo_registry Active Active)) (-1) w0).
  - vm_compute. discriminate.
  - vm_compute. discriminate.
  - vm_compute. split; discriminate.
  - left. reflexivity.
Defined.

Lemma Migrate_outcome_witness :
  ∃ pre p post,
    Migrations range_list
      (demo_migrator db_fails_after_commit (demo_registry Inactive Inactive))
      Inactive
    = pre ++ p :: post
    ∧ (∀ q, q ∈ p :: post → q ∉ pre).
Proof.
  set (m := demo_migrator db_fails_after_commit
              (demo_registry Inactive Inactive)).
  set (m' := demo_migrator db_fails_after_commit
               (demo_registry Active Inactive)).
  set (w' := world_of (Migrate range_list m w0)).
  assert (Hret : Migrate range_list m w0
                 = Returns (m', Some (ExternalError "syntax error")) w')
    by (vm_compute; reflexivity).
  pose proof (Migrate_outcome range_list range_list_perm m w0 m' _ w' Hret)
    as H.
  cbv zeta in H. destruct H as (_ & _ & H).
  destruct H as (pre & p & post & HI & _ & _ & Hdisj); [by eexists|].
  by exists pre, p, post.
Defined.

Lemma bulk_operations_frame_witness :
  same_but_statuses (demo_migrator db_ok (demo_registry Inactive Inactive))
    (demo_migrator db_ok (demo_registry Active Active)).
Proof.
  set (m := demo_migrator db_ok (demo_registry Inactive Inactive)).
  set (m' := demo_migrator db_ok (demo_registry Active Active)).
  set (w' := world_of (Migrate range_list m w0)).
  apply (bulk_operations_frame range_list m w0 m' None w').
  left. vm_compute. reflexivity.
Defined.

Lemma ApplyMigration_success_trace_witness :
  ∃ path sql,
    migration_path (demo_migration 1 "001_init" Inactive) upMigration
    = Some path
    ∧ GetMigrationCommands demo_adapter sql = ["first"; "second"].
Proof.
  set (m := demo_migrator db_ok (demo_registry Inactive Inactive)).
  set (mig := demo_migration 1 "001_init" Inactive).
  set (w' := world_of (ApplyMigration m mig upMigration w0)).
  assert (Hret : ApplyMigration m mig upMigration w0
                 = Returns (set_Status Active mig, None) w')
    by (vm_compute; reflexivity).
  destruct (ApplyMigration_success_trace m mig upMigration w0 _ w' Hret)
    as (path & sql & Hpath & Hread & _).
  exists path, sql. split; [exact Hpath|].
  vm_compute in Hread. injection Hread as <-. reflexivity.
Defined.

Lemma ApplyMigration_log_failure_witness :
  ∃ w', ApplyMigration
          (demo_migrator db_log_fails (demo_registry Inactive Inactive))
          (demo_migration 1 "001_init" Inactive) upMigration w0
        = Returns (demo_migration 1 "001_init" Inactive,
                   Some (ExternalError "log table locked")) w'.
Proof.
  pose proof (ApplyMigration_log_failure
                (demo_migrator db_log_fails (demo_registry Inactive Inactive))
                (demo_migration 1 "001_init" Inactive) upMigration w0
                "db/001_init.up.sql" "first;second"
                (ExternalError "log table locked")) as H.
  cbv zeta in H. destruct H as (err & w' & Heq & _ & Hok & _).
  - reflexivity.
  - reflexivity.
  - reflexivity.
  - intros [|[|k]] c; simpl; intros [= <-]; left; reflexivity.
  - reflexivity.
  - exists w'. rewrite Heq. by rewrite Hok.
Defined.

Lemma ApplyMigration_rows_affected_failure_witness :
  ∃ w', ApplyMigration
          (demo_migrator db_rows_fail (demo_registry Inactive Inactive))
          (demo_migration 1 "001_init" Inactive) upMigration w0
        = Returns (demo_migration 1 "001_init" Inactive,
                   Some (ExternalError "no row count")) w'.
Proof.
  destruct (ApplyMigration_rows_affected_failure
              (demo_migrator db_rows_fail (demo_registry Inactive Inactive))
              (demo_migration 1 "001_init" Inactive) upMigration w0
              "db/001_init.up.sql" "first;second" ["first"] "second" []
              (ExternalError "no row count"))
    as (err & w' & Heq & _ & Hok & _).
  - reflexivity.
  - reflexivity.
  - reflexivity.
  - reflexivity.
  - intros [|k] c; simpl; intros [= <-]. right. by exists 1%Z.
  - reflexivity.
  - exists w'. rewrite Heq. by rewrite Hok.
Defined.

Lemma ApplyMigration_before_transaction_witness :
  ApplyMigration (demo_migrator db_ok (demo_registry Inactive Inactive))
    (demo_migration 1 "001_init" Inactive) "sideways" w0
  = Returns (demo_migration 1 "001_init" Inactive, Some InvalidMigrationType)
      w0.
Proof.
  apply (ApplyMigration_before_transaction
           (demo_migrator db_ok (demo_registry Inactive Inactive))
           (demo_migration 1 "001_init" Inactive) "sideways" w0).
  reflexivity.
Defined.

Lemma apply_then_revert_witness :
  set_Status Inactive (set_Status Active (demo_migration 1 "001_init" Inactive))
  = demo_migration 1 "001_init" Inactive.
Proof.
  set (m := demo_migrator db_ok (demo_registry Inactive Inactive)).
  set (mig := demo_migration 1 "001_init" Inactive).
  set (w1 := world_of (ApplyMigration m mig upMigration w0)).
  set (w2 := world_of (ApplyMigration m (set_Status Active mig)
                         downMigration w1)).
  destruct (apply_then_revert m mig w0 (set_Status Active mig) w1
              (set_Status Inactive (set_Status Active mig)) w2)
    as (_ & _ & Hback & _).
  - vm_compute. reflexivity.
  - vm_compute. reflexivity.
  - apply Hback. reflexivity.
Defined.

Lemma Migrate_then_RollbackAll_witness :
  demo_registry Inactive Inactive !! 2%N
  = set_Status Inactive <$> demo_registry Inactive Inactive !! 2%N.
Proof.
  set (m := demo_migrator db_ok (demo_registry Inactive Inactive)).
  set (m1 := demo_migrator db_ok (demo_registry Active Active)).
  set (w1 := world_of (Migrate range_list m w0)).
  set (w2 := world_of (RollbackAll range_list m1 w1)).
  destruct (Migrate_then_RollbackAll range_list range_list_perm m w0 m1 w1
              m w2) as [H _].
  - intros key mig Hkey.
    apply demo_registry_lookup in Hkey as [[_ ->]|[_ ->]]; by left.
  - vm_compute. reflexivity.
  - vm_compute. discriminate.
  - vm_compute. reflexivity.
  - exact (H 2%N).
Defined.

Lemma stable_reads_db_row_1 : stable_reads db_row_1.
Proof. intros h h' sql arg. reflexivity. Qed.

Lemma getMigrationStatuses_reconciles_witness :
  demo_registry Active Inactive !! 1%N
  = reconciled (demo_migrator db_row_1 (demo_registry Inactive Inactive))
    <$> demo_registry Inactive Inactive !! 1%N.
Proof.
  set (m := demo_migrator db_row_1 (demo_registry Inactive Inactive)).
  set (m' := demo_migrator db_row_1 (demo_registry Active Inactive)).
  set (w' := world_of (getMigrationStatuses range_list m w0)).
  apply (getMigrationStatuses_reconciles range_list range_list_perm m w0 m'
           None w').
  - apply stable_reads_db_row_1.
  - vm_compute. reflexivity.
Defined.

Lemma FindMigrations_nothing_parses_witness :
  ∃ w', FindMigrations demo_parse range_list notes_source std_logger w0
        = Returns (∅, None) w'.
Proof.
  apply (FindMigrations_nothing_parses demo_parse range_list range_list_perm
           notes_source std_logger w0 ["README"; "notes.txt"]).
  - reflexivity.
  - intros mt Hin. apply elem_of_cons in Hin as [->|Hin]; [reflexivity|].
    apply elem_of_cons in Hin as [->|Hin]; [reflexivity|].
    by apply elem_of_nil in Hin.
Defined.

Lemma FindMigrations_pairs_artifacts_witness :
  keys_from (λ mt, demo_parse (artifact_name demo_source mt)) demo_matches
    (found_registry Inactive Inactive).
Proof.
  set (w' := world_of (FindMigrations demo_parse range_list demo_source
                         std_logger w0)).
  destruct (FindMigrations_pairs_artifacts demo_parse range_list
              range_list_perm demo_source std_logger w0 demo_matches
              (found_registry Inactive Inactive) None w') as [_ H].
  - split; [discriminate|reflexivity].
  - vm_compute. reflexivity.
  - exact H.
Defined.

Lemma File_FindMigrations_glob_error_witness :
  ∃ w', File_FindMigrations demo_parse range_list {| file_Dir := "db/" |}
          std_logger w_bad_glob
        = Exits w'.
Proof.
  destruct (File_FindMigrations_glob_error demo_parse range_list
              range_list_perm {| file_Dir := "db/" |} std_logger w_bad_glob
              (ExternalError "syntax error in pattern"))
    as (w' & _ & _ & Heq).
  - discriminate.
  - reflexivity.
  - by exists w'.
Defined.


Lemma NewMigratorWithLogger_probe_error_witness :
  ∃ w', NewMigratorWithLogger demo_parse range_list db_down demo_adapter
          demo_source std_logger w0
        = Returns (None, Some (ExternalError "connection refused")) w'.
Proof.
  destruct (NewMigratorWithLogger_probe_error demo_parse range_list db_down
              demo_adapter demo_source std_logger w0
              (ExternalError "connection refused")) as (w' & Heq & _).
  - reflexivity.
  - discriminate.
  - by exists w'.
Defined.

Lemma NewMigratorWithLogger_invalid_pair_witness :
  ∃ w', NewMigratorWithLogger demo_parse range_list db_ok demo_adapter
          (FileSourcePtr {| file_Dir := "broken/" |}) std_logger w0
        = Returns (None, Some InvalidMigrationPair) w'.
Proof.
  set (s := FileSourcePtr {| file_Dir := "broken/" |}).
  set (wp := world_of (pair_loop demo_parse (artifact_name s)
                         ["broken/003_broken.up.sql"] ∅ w0)).
  destruct (NewMigratorWithLogger_invalid_pair demo_parse range_list
              range_list_perm db_ok demo_adapter s std_logger w0
              ["broken/003_broken.up.sql"] {[3%N := broken_migration]} wp
              3%N broken_migration) as (w' & Heq & _).
  - reflexivity.
  - split; [discriminate|reflexivity].
  - vm_compute. reflexivity.
  - reflexivity.
  - reflexivity.
  - by exists w'.
Defined.


(** ** More runs of the engine *)

(** On a database that fails the second migration, [Migrate] leaves the
    first one Active and the second one Inactive. *)
Example migrate_partial_failure :
  ∃ w', Migrate range_list
          (demo_migrator db_fails_after_commit
             (demo_registry Inactive Inactive)) w0
        = Returns (demo_migrator db_fails_after_commit
                     (demo_registry Active Inactive),
                   Some (ExternalError "syntax error")) w'.
Proof. eexists. vm_compute. reflexivity. Qed.

(** Construction on a database whose log holds migration 1 alone. *)
Example construction_reconciles :
  ∃ w', NewMigratorWithLogger demo_parse range_list db_row_1 demo_adapter
          demo_source std_logger w0
        = Returns (Some (mkMigrator db_row_1 demo_adapter
                           (found_registry Active Inactive) std_logger
                           demo_source), None) w'.
Proof. eexists. vm_compute. reflexivity. Qed.

Lemma ApplyMigration_begin_failure_witness :
  ∃ w', ApplyMigration (demo_migrator db_down (demo_registry Inactive Inactive))
          (demo_migration 1 "001_init" Inactive) upMigration w0
        = Returns (demo_migration 1 "001_init" Inactive,
                   Some (ExternalError "connection refused")) w'.
Proof.
  destruct (ApplyMigration_begin_failure
              (demo_migrator db_down (demo_registry Inactive Inactive))
              (demo_migration 1 "001_init" Inactive) upMigration w0
              "db/001_init.up.sql" "first;second"
              (ExternalError "connection refused")) as (w' & Heq & _).
  - reflexivity.
  - reflexivity.
  - reflexivity.
  - by exists w'.
Defined.

Lemma demo_matches_complete :
  complete_pairs (λ mt, demo_parse (artifact_name demo_source mt))
    demo_matches.
Proof.
  split.
  - intros mt Hin. apply list_elem_of_In in Hin. simpl in Hin.
    intuition (subst; discriminate).
  - intros mt num t name Hin Hparse.
    assert (Hup1 : "db/001_init.up.sql" ∈ demo_matches)
      by (apply list_elem_of_In; simpl; auto 10).
    assert (Hdown1 : "db/001_init.down.sql" ∈ demo_matches)
      by (apply list_elem_of_In; simpl; auto 10).
    assert (Hup2 : "db/002_add_col.up.sql" ∈ demo_matches)
      by (apply list_elem_of_In; simpl; auto 10).
    assert (Hdown2 : "db/002_add_col.down.sql" ∈ demo_matches)
      by (apply list_elem_of_In; simpl; auto 10).
    apply list_elem_of_In in Hin. simpl in Hin.
    destruct Hin as [<-|[<-|[<-|[<-|[<-|[]]]]]]; vm_compute in Hparse;
      try discriminate Hparse; injection Hparse as <- <- <-;
      (split; [discriminate|]); (split; [discriminate|]); split.
    + by exists "db/001_init.up.sql", "init".
    + by exists "db/001_init.down.sql", downMigration, "init".
    + by exists "db/001_init.up.sql", "init".
    + by exists "db/001_init.down.sql", downMigration, "init".
    + by exists "db/002_add_col.up.sql", "add_col".
    + by exists "db/002_add_col.down.sql", downMigration, "add_col".
    + by exists "db/002_add_col.up.sql", "add_col".
    + by exists "db/002_add_col.down.sql", downMigration, "add_col".
Qed.

Lemma FindMigrations_accepts_complete_pairs_witness :
  ∃ ms w', FindMigrations demo_parse range_list demo_source std_logger w0
           = Returns (ms, None) w'.
Proof.
  destruct (FindMigrations_accepts_complete_pairs demo_parse range_list
              range_list_perm demo_source std_logger w0 demo_matches)
    as (ms & w' & Heq & _).
  - split; [discriminate|reflexivity].
  - apply demo_matches_complete.
  - by exists ms, w'.
Defined.
